(** * podsync: the per-feed update pipeline (cmd/podsync updater)

  A shallow embedding of [updateFeed], [matchRegexpFilter], [matchFilters],
  [downloadEpisodes] and [cleanup], with the collaborators they call
  (local store, file storage, downloader, sponsor-segment lookup, regexp
  engine, transcoder) made explicit. *)

From Stdlib Require Import ZArith QArith Qround Ascii DecimalString Lia Lqa.
From stdpp Require Import base option list gmap strings fin_maps sorting.

Local Open Scope Z_scope.

(** ** Data model (pkg/model, pkg/config) *)

Module Model.

(** model.EpisodeStatus: a closed enumeration. *)
Inductive EpisodeStatus := EpisodeNew | EpisodeDownloaded | EpisodeError | EpisodeCleaned.

#[global] Instance EpisodeStatus_eq_dec : EqDecision EpisodeStatus.
Proof. solve_decision. Defined.

(** model.Episode. [PubDate] is an instant (nanoseconds since the epoch),
    [Size] an int64. *)
Record Episode := mkEpisode {
  ID : string;
  Title : string;
  Description : string;
  PubDate : Z;
  VideoURL : string;
  Size : Z;
  Status : EpisodeStatus;
}.

#[global] Instance Episode_eq_dec : EqDecision Episode.
Proof. solve_decision. Defined.

(** model.Format: only the distinction the updater makes. *)
Inductive Format := FormatAudio | FormatVideo.

#[global] Instance Format_eq_dec : EqDecision Format.
Proof. solve_decision. Defined.

(** The closures passed to [UpdateEpisode]. *)
Definition set_downloaded (size : Z) (e : Episode) : Episode :=
  {| ID := ID e; Title := Title e; Description := Description e;
     PubDate := PubDate e; VideoURL := VideoURL e;
     Size := size; Status := EpisodeDownloaded |}.

Definition set_error (e : Episode) : Episode :=
  {| ID := ID e; Title := Title e; Description := Description e;
     PubDate := PubDate e; VideoURL := VideoURL e;
     Size := Size e; Status := EpisodeError |}.

Definition set_cleaned (e : Episode) : Episode :=
  {| ID := ID e; Title := ""; Description := "";
     PubDate := PubDate e; VideoURL := VideoURL e;
     Size := Size e; Status := EpisodeCleaned |}.

End Model.
Export Model.

Module Config.

(** config.Filters *)
Record Filters := mkFilters {
  FTitle : string;
  FNotTitle : string;
  FDescription : string;
  FNotDescription : string;
}.

(** config.SponsorBlockCategories: one policy string per category. *)
Record SponsorBlockCategories := mkCategories {
  Sponsors : string;
  Intermissions : string;
  Endcards : string;
  InteractionReminders : string;
  SelfPromotions : string;
  NonmusicSections : string;
}.

(** config.Feed, the fields the updater reads. [SponsorblockDelay] is only
    compared with the time since publication; the comparison's outcome is
    supplied by the environment (see [World]). *)
Record Feed := mkFeed {
  FeedID : string;
  PageSize : Z;
  FeedFormat : Format;
  FeedFilters : Filters;
  KeepLast : Z;
  SponsorblockMode : string;
  Categories : SponsorBlockCategories;
}.

Definition IsValidSponsorblockMode (mode : string) (inFeed : bool) : bool :=
  if decide (mode = "off") then true
  else if decide (mode = "require") then true
  else if decide (mode = "delay") then true
  else if decide (mode = "requiredelay") then true
  else if decide (mode = "default") then inFeed
  else false.

Definition IsValidCategoryMode (mode : string) (inFeed : bool) : bool :=
  if decide (mode = "cut") then true
  else if decide (mode = "keep") then true
  else if decide (mode = "default") then inFeed
  else false.

End Config.
Export Config.

(** ** Filter engine *)

Module FilterEngine.
Section WithRegexp.

(** regexp.MatchString pattern str: [None] when the pattern does not
    compile, [Some matched] otherwise. *)
Variable MatchString : string -> string -> option bool.

Definition matchRegexpFilter (pattern str : string) (negative : bool) : bool :=
  if decide (pattern <> "") then
    match MatchString pattern str with
    | None => true
    | Some matched => if Bool.eqb matched negative then false else true
    end
  else true.

Definition matchFilters (episode : Episode) (filters : Filters) : bool :=
  if negb (matchRegexpFilter (FTitle filters) (Title episode) false) then false
  else if negb (matchRegexpFilter (FNotTitle filters) (Title episode) true) then false
  else if negb (matchRegexpFilter (FDescription filters) (Description episode) false) then false
  else if negb (matchRegexpFilter (FNotDescription filters) (Description episode) true) then false
  else true.

End WithRegexp.
End FilterEngine.
Export FilterEngine.

(** ** Errors and results *)

Inductive error :=
| ErrNotFound (id : string)
| ErrStat (name : string)
| ErrCopy (name : string)
| ErrTempDir
| ErrFfmpeg
| ErrOpen (path : string)
| ErrDelete (id : string)
| ErrSetState (id : string)
| ErrBuild
| ErrPanic.

#[global] Instance error_eq_dec : EqDecision error.
Proof. solve_decision. Defined.

Inductive result (A : Type) :=
| Ok (a : A)
| Err (e : error).
Arguments Ok {A} a.
Arguments Err {A} e.

Definition bind {A B} (r : result A) (k : A -> result B) : result B :=
  match r with
  | Ok a => k a
  | Err e => Err e
  end.

Notation "'try' x <- r ; k" := (bind r (fun x => k))
  (at level 10, x name, r at level 100, k at level 200,
   format "'[v' 'try'  x  <-  r ; '/' k ']'").

(** ** Local store (pkg/db) *)

Module Store.

(** The episodes of one feed, keyed by episode ID. Every operation of the
    updater addresses the store at [feedConfig.ID]; the other feeds of the
    database are not touched and are left out. *)
Abbreviation Store := (gmap string Episode).

(** Modelled from the spec: pkg/db's [WalkEpisodes] (db.Storage is an
    interface; its implementation is not part of this fragment). The visit
    is ordered and restartable; the order is the map's. *)
Definition WalkEpisodes (db : Store) : list Episode := (map_to_list db).*2.

(** An episode first seen in a listing enters the store as [New]. *)
Definition as_new (e : Episode) : Episode :=
  {| ID := ID e; Title := Title e; Description := Description e;
     PubDate := PubDate e; VideoURL := VideoURL e;
     Size := Size e; Status := EpisodeNew |}.

(** A known episode is refreshed from the listing; its status stays the
    stored one. *)
Definition refresh (stored remote : Episode) : Episode :=
  {| ID := ID remote; Title := Title remote; Description := Description remote;
     PubDate := PubDate remote; VideoURL := VideoURL remote;
     Size := Size remote; Status := Status stored |}.

Definition upsert (db : Store) (remote : Episode) : Store :=
  match db !! ID remote with
  | None => <[ID remote := as_new remote]> db
  | Some stored => <[ID remote := refresh stored remote]> db
  end.

(** Modelled from the spec: pkg/db's [AddFeed]: "each remote episode not
    previously known is inserted as New; each one already known is
    merged/refreshed without altering its current status". *)
Definition AddFeed (db : Store) (episodes : list Episode) : result Store :=
  Ok (foldl upsert db episodes).

(** Modelled from the spec: pkg/db's [UpdateEpisode]: "read-modify-write,
    fails if unknown". *)
Definition UpdateEpisode (db : Store) (episodeID : string)
    (cb : Episode -> Episode) : result Store :=
  match db !! episodeID with
  | Some e => Ok (<[episodeID := cb e]> db)
  | None => Err (ErrNotFound episodeID)
  end.

(** Modelled from the spec: pkg/db's [DeleteEpisode]. *)
Definition DeleteEpisode (db : Store) (episodeID : string) : result Store :=
  Ok (delete episodeID db).

(** Every record sits under its own ID. *)
Definition keyed (db : Store) : Prop :=
  map_Forall (fun k e => ID e = k) db.

End Store.
Export Store.

(** ** Episode reconciler *)

(** builder result: the listing fetched from the remote source. *)
Record FeedResult := mkFeedResult {
  ResultTitle : string;
  Episodes : list Episode;
}.

(** The walk callback of [updateFeed]: collect the IDs that are neither
    downloaded nor cleaned. *)
Definition collectCandidate (episodeSet : gset string) (episode : Episode) : gset string :=
  if decide (Status episode <> EpisodeDownloaded /\ Status episode <> EpisodeCleaned)
  then {[ID episode]} ∪ episodeSet
  else episodeSet.

(** The final loop of [updateFeed]: delete every remaining ID, stopping at
    the first failure. *)
Fixpoint deleteAll (db : Store) (ids : list string) : result Store :=
  match ids with
  | [] => Ok db
  | id :: rest => try db' <- DeleteEpisode db id; deleteAll db' rest
  end.

(** [updateFeed], from the provider's answer on. [fetched] is what
    [provider.Build] returned. Go ranges over [episodeSet] in an unspecified
    order; [elements] fixes one. *)
Definition updateFeed (fetched : result FeedResult) (db : Store) : result Store :=
  try result_ <- fetched;
  let episodeSet := foldl collectCandidate ∅ (WalkEpisodes db) in
  try db1 <- AddFeed db (Episodes result_);
  let episodeSet := foldl (fun s episode => s ∖ {[ID episode]}) episodeSet (Episodes result_) in
  deleteAll db1 (elements episodeSet).

(** ** Segment planner *)

Module Planner.

Local Open Scope Q_scope.

(** The local type [Segment] of [downloadEpisodes]. A float64 decoded from
    JSON is finite, and the code only copies, compares and prints these
    values, so a rational carries each of them exactly. [SegmentBounds] is
    the field [Segment []float64]. *)
Record Segment := mkSegment {
  SegmentBounds : list Q;
  UUID : string;
  Category : string;
}.

(** The six guards that [continue] past a segment. *)
Definition kept (c : SponsorBlockCategories) (segment : Segment) : bool :=
  if decide (Category segment = "sponsor" /\ Sponsors c = "keep") then true
  else if decide (Category segment = "intro" /\ Intermissions c = "keep") then true
  else if decide (Category segment = "outro" /\ Endcards c = "keep") then true
  else if decide (Category segment = "interaction" /\ InteractionReminders c = "keep") then true
  else if decide (Category segment = "selfpromo" /\ SelfPromotions c = "keep") then true
  else if decide (Category segment = "music_offtopic" /\ NonmusicSections c = "keep") then true
  else false.

(** The loop over [segments], threading [keeps] and [nextStart]. Indexing
    [segment.Segment] out of range panics: [None]. *)
Fixpoint planLoop (c : SponsorBlockCategories) (segments : list Segment)
    (nextStart : Q) (keeps : list (Q * Q)) : option (list (Q * Q) * Q) :=
  match segments with
  | [] => Some (keeps, nextStart)
  | segment :: rest =>
      if kept c segment then planLoop c rest nextStart keeps
      else
        match SegmentBounds segment !! 0%nat, SegmentBounds segment !! 1%nat with
        | Some s0, Some s1 => planLoop c rest s1 (keeps ++ [(nextStart, s0)])
        | _, _ => None
        end
  end.

Definition planKeeps (c : SponsorBlockCategories) (segments : list Segment)
    : option (list (Q * Q)) :=
  match planLoop c segments 0 [] with
  | Some (keeps, nextStart) => Some (keeps ++ [(nextStart, -1)])
  | None => None
  end.

End Planner.
Export Planner.

(** ** Filter-graph builder *)

Module FilterGraph.

(** fmt's [%d]. *)
Definition fmt_d (n : Z) : string := NilZero.string_of_int (Z.to_int n).

(** Round [n / d] to the nearest integer, ties to even ([0 <= n]). *)
Definition round_half_even (n : Z) (d : positive) : Z :=
  let q := n / Z.pos d in
  let r := n mod Z.pos d in
  if 2 * r <? Z.pos d then q
  else if Z.pos d <? 2 * r then q + 1
  else if Z.even q then q else q + 1.

Definition digit (n : Z) : ascii := ascii_of_nat (48 + Z.to_nat (n mod 10)).

Definition frac6 (n : Z) : string :=
  String (digit (n / 100000)) (String (digit (n / 10000)) (String (digit (n / 1000))
    (String (digit (n / 100)) (String (digit (n / 10)) (String (digit n) ""))))).

(** fmt's [%f] on a finite float64: six decimals, the exact value rounded
    half to even, a sign for negative values. *)
Definition fmt_f (x : Q) : string :=
  let n := round_half_even (Z.abs (Qnum x) * 1000000) (Qden x) in
  (if Qnum x <? 0 then "-" else "") +:+ fmt_d (n / 1000000) +:+ "." +:+ frac6 (n mod 1000000).

(** One pass of the loop over [keeps]: the text appended to [filter] and
    to [finalFilter]. *)
Definition audioStage (idx : nat) (seg : Q * Q) (filter : string) : string :=
  let '(start, end_) := seg in
  let filter := filter +:+ ("[0:a]atrim=start=" +:+ fmt_f start) in
  let filter := if Qle_bool 0 end_ then filter +:+ (":end=" +:+ fmt_f end_) else filter in
  filter +:+ (",asetpts=PTS-STARTPTS[s" +:+ fmt_d (Z.of_nat idx) +:+ "a];").

Definition videoStage (idx : nat) (seg : Q * Q) (filter : string) : string :=
  let '(start, end_) := seg in
  let filter := filter +:+ ("[0:v]trim=start=" +:+ fmt_f start) in
  let filter := if Qle_bool 0 end_ then filter +:+ (":end=" +:+ fmt_f end_) else filter in
  filter +:+ (",setpts=PTS-STARTPTS[s" +:+ fmt_d (Z.of_nat idx) +:+ "v];").

Fixpoint filterLoop (format : Format) (idx : nat) (keeps : list (Q * Q))
    (filter finalFilter : string) : string * string :=
  match keeps with
  | [] => (filter, finalFilter)
  | segment :: rest =>
      let filter := audioStage idx segment filter in
      let '(filter, finalFilter) :=
        if decide (format <> FormatAudio)
        then (videoStage idx segment filter,
              finalFilter +:+ ("[s" +:+ fmt_d (Z.of_nat idx) +:+ "v]"))
        else (filter, finalFilter) in
      let finalFilter := finalFilter +:+ ("[s" +:+ fmt_d (Z.of_nat idx) +:+ "a]") in
      filterLoop format (S idx) rest filter finalFilter
  end.

Definition ext (format : Format) : string :=
  if decide (format = FormatAudio) then "mp3" else "mp4".

Definition videoStreams (format : Format) : Z :=
  if decide (format = FormatAudio) then 0 else 1.

(** The value of [filter] handed to the transcoder. *)
Definition filterComplex (format : Format) (keeps : list (Q * Q)) : string :=
  let '(filter, finalFilter) := filterLoop format 0 keeps "" "" in
  let filter := filter +:+ (finalFilter +:+
    ("concat=n=" +:+ fmt_d (Z.of_nat (length keeps)) +:+ ":v=" +:+
     fmt_d (videoStreams format) +:+ ":a=1")) in
  let filter := if decide (format <> FormatAudio) then filter +:+ "[outv]" else filter in
  filter +:+ "[outa]".

(** [processedPath]; [join] is filepath.Join. *)
Definition processedPath (join : string -> string -> string) (tmpDir : string)
    (format : Format) (episode : Episode) : string :=
  join tmpDir ("processed-" +:+ ID episode +:+ "." +:+ ext format).

(** The argument vector of the transcoder invocation. *)
Definition ffmpegArgs (join : string -> string -> string) (tmpDir inputPath : string)
    (format : Format) (episode : Episode) (keeps : list (Q * Q)) : list string :=
  let args := ["-f"; ext format; "-i"; inputPath; "-filter_complex";
               filterComplex format keeps; "-map"; "[outa]"] in
  let args := if decide (format <> FormatAudio) then args ++ ["-map"; "[outv]"] else args in
  args ++ [processedPath join tmpDir format episode].

End FilterGraph.
Export FilterGraph.

(** ** Collaborators of the download scheduler and the retention cleaner *)

Module Updater.

(** What [Downloader.Download] answers. *)
Inductive DownloadResult :=
| Fetched (path : string) (size : Z)
| ErrTooManyRequests
| DownloadFailed.

(** What running the transcoder does: [cmd.Start] fails, [cmd.Wait] fails,
    or the processed file is written with the given size. *)
Inductive TranscodeResult :=
| StartFailed
| WaitFailed
| Transcoded (size : Z).

(** What [fs.Size] answers. *)
Inductive SizeResult :=
| SizeOk (size : Z)
| SizeNotExist
| SizeErr.

(** The answers of the outside world during one run. [LookupSegments] is
    the decoded body of the sponsor-segment request, empty on a 404, on
    another status and on a transport or decoding failure; [DelayPassed] is
    the comparison of the time since [PubDate] with [SponsorblockDelay];
    [SortSlice] is sort.Slice, which is not stable. *)
Record World := mkWorld {
  MatchString : string -> string -> option bool;
  EpisodeName : Feed -> Episode -> string;
  StatFails : string -> bool;
  LookupSegments : Episode -> list Segment;
  DelayPassed : Episode -> bool;
  Download : Episode -> DownloadResult;
  TempDir : Episode -> option string;
  Join : string -> string -> string;
  Transcode : list string -> TranscodeResult;
  OpenFails : string -> bool;
  CreateFails : string -> bool;
  DeleteFails : string -> bool;
  SortSlice : (Episode -> Episode -> bool) -> list Episode -> list Episode;
}.

(** The calls made to collaborators, oldest first. *)
Inductive Event :=
| EvLookup (id : string)
| EvDownload (id : string)
| EvFfmpeg (args : list string)
| EvCreate (name : string) (size : Z)
| EvDelete (name : string).

(** The store, the blobs of the feed in file storage (name to size) and the
    calls made so far. *)
Record State := mkState {
  db : Store;
  blobs : gmap string Z;
  trace : list Event;
}.

Definition with_db (st : State) (db' : Store) : State :=
  {| db := db'; blobs := blobs st; trace := trace st |}.

Definition log (st : State) (ev : Event) : State :=
  {| db := db st; blobs := blobs st; trace := trace st ++ [ev] |}.

(** fs.Size *)
Definition fsSize (w : World) (st : State) (name : string) : SizeResult :=
  if StatFails w name then SizeErr
  else match blobs st !! name with
       | Some size => SizeOk size
       | None => SizeNotExist
       end.

(** fs.Create: the number of bytes written, or an error. *)
Definition fsCreate (w : World) (st : State) (name : string) (size : Z)
    : State * result Z :=
  if CreateFails w name then (st, Err (ErrCopy name))
  else ({| db := db st; blobs := <[name := size]> (blobs st);
           trace := trace st ++ [EvCreate name size] |}, Ok size).

(** fs.Delete *)
Definition fsDelete (w : World) (st : State) (name : string) : State * bool :=
  if DeleteFails w name then (st, false)
  else ({| db := db st; blobs := delete name (blobs st);
           trace := trace st ++ [EvDelete name] |}, true).

(** Go's [int] on the 64-bit targets: [pageSize--] wraps around. *)
Definition wrap_int (z : Z) : Z :=
  (z + 9223372036854775808) mod 18446744073709551616 - 9223372036854775808.

(** *** Candidate selection *)

(** The walk callback of [downloadEpisodes], on the captured [pageSize]
    and [downloadList]. *)
Definition selectStep (w : World) (feedConfig : Feed)
    (acc : Z * list Episode) (episode : Episode) : Z * list Episode :=
  let '(pageSize, downloadList) := acc in
  if decide (Status episode <> EpisodeNew /\ Status episode <> EpisodeError) then acc
  else if negb (matchFilters (MatchString w) episode (FeedFilters feedConfig)) then acc
  else
    let pageSize := wrap_int (pageSize - 1) in
    if pageSize <=? 0 then (pageSize, downloadList)
    else (pageSize, downloadList ++ [episode]).

Definition selectCandidates (w : World) (feedConfig : Feed) (db : Store)
    : Z * list Episode :=
  foldl (selectStep w feedConfig) (PageSize feedConfig, []) (WalkEpisodes db).

(** *** Processing one candidate *)

(** How the body of the loop over [downloadList] ends. *)
Inductive Flow :=
| Continue
| Break
| Return (e : error).

(** The branch taken when segments were returned: plan, render, transcode,
    store the processed file. *)
Definition storeProcessed (w : World) (feedConfig : Feed) (episode : Episode)
    (inputPath : string) (segments : list Segment) (st : State) : State * result Z :=
  match planKeeps (Categories feedConfig) segments with
  | None => (st, Err ErrPanic)
  | Some keeps =>
      match TempDir w episode with
      | None => (st, Err ErrTempDir)
      | Some tmpDir =>
          let args := ffmpegArgs (Join w) tmpDir inputPath (FeedFormat feedConfig) episode keeps in
          let st := log st (EvFfmpeg args) in
          match Transcode w args with
          | StartFailed => (st, Err ErrFfmpeg)
          | WaitFailed => (st, Err ErrFfmpeg)
          | Transcoded size =>
              let path := processedPath (Join w) tmpDir (FeedFormat feedConfig) episode in
              if OpenFails w path then (st, Err (ErrOpen path))
              else fsCreate w st (EpisodeName w feedConfig episode) size
          end
      end
  end.

(** After a successful fetch: copy or trim, then record the size. *)
Definition storeAndMark (w : World) (feedConfig : Feed) (episode : Episode)
    (path : string) (rawSize : Z) (segments : list Segment) (st : State) : State * Flow :=
  let '(st, stored) :=
    if decide (length segments = 0%nat)
    then fsCreate w st (EpisodeName w feedConfig episode) rawSize
    else storeProcessed w feedConfig episode path segments st in
  match stored with
  | Err e => (st, Return e)
  | Ok fileSize =>
      match UpdateEpisode (db st) (ID episode) (set_downloaded fileSize) with
      | Ok db' => (with_db st db', Continue)
      | Err e => (st, Return e)
      end
  end.

(** The body of the loop over [downloadList]. *)
Definition processEpisode (w : World) (feedConfig : Feed) (episode : Episode)
    (st : State) : State * Flow :=
  let episodeName := EpisodeName w feedConfig episode in
  match fsSize w st episodeName with
  | SizeOk size =>
      match UpdateEpisode (db st) (ID episode) (set_downloaded size) with
      | Ok db' => (with_db st db', Continue)
      | Err e => (st, Return e)
      end
  | SizeErr => (st, Return (ErrStat episodeName))
  | SizeNotExist =>
      let delayPassed := DelayPassed w episode in
      let '(segments, st) :=
        if decide (SponsorblockMode feedConfig <> "off")
        then (LookupSegments w episode, log st (EvLookup (ID episode)))
        else ([], st) in
      if decide (SponsorblockMode feedConfig = "require" /\ length segments = 0%nat)
      then (st, Continue)
      else if decide (SponsorblockMode feedConfig = "requiredelay"
                      /\ length segments = 0%nat /\ delayPassed = false)
      then (st, Continue)
      else
        let st := log st (EvDownload (ID episode)) in
        match Download w episode with
        | ErrTooManyRequests => (st, Break)
        | DownloadFailed =>
            match UpdateEpisode (db st) (ID episode) set_error with
            | Ok db' => (with_db st db', Continue)
            | Err e => (st, Return e)
            end
        | Fetched path rawSize =>
            storeAndMark w feedConfig episode path rawSize segments st
        end
  end.

(** The loop over [downloadList]: the state it leaves and the error it
    returns, if any. *)
Fixpoint processAll (w : World) (feedConfig : Feed) (downloadList : list Episode)
    (st : State) : State * option error :=
  match downloadList with
  | [] => (st, None)
  | episode :: rest =>
      match processEpisode w feedConfig episode st with
      | (st', Continue) => processAll w feedConfig rest st'
      | (st', Break) => (st', None)
      | (st', Return e) => (st', Some e)
      end
  end.

Definition downloadEpisodes (w : World) (feedConfig : Feed) (st : State)
    : State * option error :=
  let '(_, downloadList) := selectCandidates w feedConfig (db st) in
  if decide (0 < length downloadList)%nat
  then processAll w feedConfig downloadList st
  else (st, None).

(** *** Retention cleaner *)

(** The comparison handed to sort.Slice: [list[i].PubDate.After(list[j].PubDate)]. *)
Definition after (a b : Episode) : bool := PubDate b <? PubDate a.

(** The body of the loop over [list[count:]], on the state and the
    accumulated multierror. *)
Definition cleanStep (w : World) (feedConfig : Feed) (acc : State * list error)
    (episode : Episode) : State * list error :=
  let '(st, result_) := acc in
  match fsDelete w st (EpisodeName w feedConfig episode) with
  | (st, false) => (st, result_ ++ [ErrDelete (ID episode)])
  | (st, true) =>
      match UpdateEpisode (db st) (ID episode) set_cleaned with
      | Ok db' => (with_db st db', result_)
      | Err _ => (st, result_ ++ [ErrSetState (ID episode)])
      end
  end.

(** [cleanup]: the state it leaves and the errors of [result]; the empty
    list is a nil error. *)
Definition cleanup (w : World) (feedConfig : Feed) (st : State) : State * list error :=
  let count := KeepLast feedConfig in
  if count <? 1 then (st, [])
  else
    let list := filter (fun e => Status e = EpisodeDownloaded) (WalkEpisodes (db st)) in
    if Z.of_nat (length list) <? count then (st, [])
    else
      let list := SortSlice w after list in
      foldl (cleanStep w feedConfig) (st, []) (drop (Z.to_nat count) list).

End Updater.
Export Updater.

(** ** Configuration file (pkg/config) *)

Module ConfigFile.

(** The structs of config.go with all their fields; durations are
    nanoseconds, [int]s are integers, the optional [*Badger] is an option.
    The record [Config.Feed] above is the part of [Feed] the updater
    reads. *)
Record Custom := mkCustom {
  CoverArt : string;
  CustomCategory : string;
  Explicit : bool;
  Language : string;
}.

Record Feed := mkFeed {
  ID : string;
  URL : string;
  PageSize : Z;
  UpdatePeriod : Z;
  CronSchedule : string;
  Quality : string;
  MaxHeight : Z;
  Format : string;
  Filters : Config.Filters;
  Clean : Z;
  FeedCustom : Custom;
  YouTubeDLArgs : list string;
  OPML : bool;
  SponsorblockMode : string;
  SponsorblockDelay : Z;
  FeedCategories : SponsorBlockCategories;
}.

Record Server := mkServer {
  Hostname : string;
  Port : Z;
  DataDir : string;
}.

Record Badger := mkBadger {
  Truncate : bool;
  FileIO : bool;
}.

Record Database := mkDatabase {
  Dir : string;
  DatabaseBadger : option Badger;
}.

Record Log := mkLog {
  Filename : string;
  MaxSize : Z;
  MaxBackups : Z;
  MaxAge : Z;
  Compress : bool;
}.

Record SponsorBlock := mkSponsorBlock {
  ApiUrl : string;
  DefaultMode : string;
  DefaultDelay : Z;
  DefaultCategories : SponsorBlockCategories;
}.

Record Config := mkConfig {
  ConfigServer : Server;
  ConfigLog : Log;
  ConfigDatabase : Database;
  Feeds : gmap string Feed;
  Tokens : gmap string (list string);
  SelfUpdate : bool;
  ConfigSponsorBlock : SponsorBlock;
}.

(** What config.go takes from outside: the constants of pkg/model, the
    file system, the TOML decoder and path/filepath. *)
Record Env := mkEnv {
  DefaultLogMaxSize : Z;
  DefaultLogMaxAge : Z;
  DefaultLogMaxBackups : Z;
  DefaultUpdatePeriod : Z;
  DefaultQuality : string;
  DefaultFormat : string;
  DefaultPageSize : Z;
  ReadFile : string -> option string;
  Unmarshal : string -> option Config;
  PathJoin : string -> string -> string;
  PathDir : string -> string;
}.

(** The errors [validate] collects. *)
Inductive ValidationError :=
| DataDirRequired
| NoFeedSpecified
| InvalidDefaultMode (mode : string)
| URLRequired (id : string)
| InvalidFeedMode (mode id : string).

Inductive LoadError :=
| ReadFailed (path : string)
| UnmarshalFailed
| Invalid (errors : list ValidationError).

(** [x] unless it is empty. *)
Definition or_default (x fallback : string) : string :=
  if decide (x = "") then fallback else x.

(** The value a feed takes from the global configuration when its own is
    empty or [default]. *)
Definition or_global (x global : string) : string :=
  if decide (x = "" \/ x = "default") then global else x.

Definition defaultServer (s : Server) : Server :=
  if decide (Hostname s = "") then
    if decide (Port s <> 0 /\ Port s <> 80)
    then {| Hostname := "http://localhost:" +:+ fmt_d (Port s);
            Port := Port s; DataDir := DataDir s |}
    else {| Hostname := "http://localhost"; Port := Port s; DataDir := DataDir s |}
  else s.

Definition defaultLog (env : Env) (l : Log) : Log :=
  if decide (Filename l <> "") then
    {| Filename := Filename l;
       MaxSize := if decide (MaxSize l = 0) then DefaultLogMaxSize env else MaxSize l;
       MaxBackups := if decide (MaxBackups l = 0) then DefaultLogMaxBackups env
                     else MaxBackups l;
       MaxAge := if decide (MaxAge l = 0) then DefaultLogMaxAge env else MaxAge l;
       Compress := Compress l |}
  else l.

Definition defaultDatabase (env : Env) (configPath : string) (d : Database) : Database :=
  if decide (Dir d = "")
  then {| Dir := PathJoin env (PathDir env configPath) "db";
          DatabaseBadger := DatabaseBadger d |}
  else d.

(** These category defaults should match sponsorblock's defaults. *)
Definition defaultCategories (c : SponsorBlockCategories) : SponsorBlockCategories :=
  {| Sponsors := or_default (Sponsors c) "cut";
     Intermissions := or_default (Intermissions c) "keep";
     Endcards := or_default (Endcards c) "keep";
     InteractionReminders := or_default (InteractionReminders c) "keep";
     SelfPromotions := or_default (SelfPromotions c) "keep";
     NonmusicSections := or_default (NonmusicSections c) "cut" |}.

Definition defaultSponsorBlock (s : SponsorBlock) : SponsorBlock :=
  {| ApiUrl := or_default (ApiUrl s) "https://sponsor.ajay.app";
     DefaultMode := or_default (DefaultMode s) "off";
     DefaultDelay := DefaultDelay s;
     DefaultCategories := defaultCategories (DefaultCategories s) |}.

Definition feedCategories (global c : SponsorBlockCategories) : SponsorBlockCategories :=
  {| Sponsors := or_global (Sponsors c) (Sponsors global);
     Intermissions := or_global (Intermissions c) (Intermissions global);
     Endcards := or_global (Endcards c) (Endcards global);
     InteractionReminders := or_global (InteractionReminders c) (InteractionReminders global);
     SelfPromotions := or_global (SelfPromotions c) (SelfPromotions global);
     NonmusicSections := or_global (NonmusicSections c) (NonmusicSections global) |}.

(** The body of the loop over [c.Feeds]; [sb] is the global section after
    its own defaults. *)
Definition defaultFeed (env : Env) (sb : SponsorBlock) (f : Feed) : Feed :=
  {| ID := ID f;
     URL := URL f;
     PageSize := if decide (PageSize f = 0) then DefaultPageSize env else PageSize f;
     UpdatePeriod := if decide (UpdatePeriod f = 0) then DefaultUpdatePeriod env
                     else UpdatePeriod f;
     CronSchedule := CronSchedule f;
     Quality := or_default (Quality f) (DefaultQuality env);
     MaxHeight := MaxHeight f;
     Format := or_default (Format f) (DefaultFormat env);
     Filters := Filters f;
     Clean := Clean f;
     FeedCustom := FeedCustom f;
     YouTubeDLArgs := YouTubeDLArgs f;
     OPML := OPML f;
     SponsorblockMode := or_global (SponsorblockMode f) (DefaultMode sb);
     SponsorblockDelay := if decide (SponsorblockDelay f = 0) then DefaultDelay sb
                          else SponsorblockDelay f;
     FeedCategories := feedCategories (DefaultCategories sb) (FeedCategories f) |}.

Definition applyDefaults (env : Env) (configPath : string) (c : Config) : Config :=
  let sb := defaultSponsorBlock (ConfigSponsorBlock c) in
  {| ConfigServer := defaultServer (ConfigServer c);
     ConfigLog := defaultLog env (ConfigLog c);
     ConfigDatabase := defaultDatabase env configPath (ConfigDatabase c);
     Feeds := defaultFeed env sb <$> Feeds c;
     Tokens := Tokens c;
     SelfUpdate := SelfUpdate c;
     ConfigSponsorBlock := sb |}.

(** The errors of one feed, in the order [validate] appends them. *)
Definition validateFeed (id : string) (f : Feed) : list ValidationError :=
  (if decide (URL f = "") then [URLRequired id] else [])
  ++ (if IsValidSponsorblockMode (SponsorblockMode f) true then []
      else [InvalidFeedMode (SponsorblockMode f) id]).

(** [validate]: the collected errors, none for a nil error. Go ranges over
    [c.Feeds] in an unspecified order; the order of the map is taken. *)
Definition validate (c : Config) : list ValidationError :=
  (if decide (DataDir (ConfigServer c) = "") then [DataDirRequired] else [])
  ++ (if decide (size (Feeds c) = 0%nat) then [NoFeedSpecified] else [])
  ++ (if IsValidSponsorblockMode (DefaultMode (ConfigSponsorBlock c)) false then []
      else [InvalidDefaultMode (DefaultMode (ConfigSponsorBlock c))])
  ++ concat ((fun kf => validateFeed (fst kf) (snd kf)) <$> map_to_list (Feeds c)).

(** The loop that gives every feed its key as [ID]. *)
Definition setIDs (c : Config) : Config :=
  {| ConfigServer := ConfigServer c; ConfigLog := ConfigLog c;
     ConfigDatabase := ConfigDatabase c;
     Feeds := map_imap (fun id f =>
                Some {| ID := id; URL := URL f; PageSize := PageSize f;
                        UpdatePeriod := UpdatePeriod f; CronSchedule := CronSchedule f;
                        Quality := Quality f; MaxHeight := MaxHeight f; Format := Format f;
                        Filters := Filters f; Clean := Clean f; FeedCustom := FeedCustom f;
                        YouTubeDLArgs := YouTubeDLArgs f; OPML := OPML f;
                        SponsorblockMode := SponsorblockMode f;
                        SponsorblockDelay := SponsorblockDelay f;
                        FeedCategories := FeedCategories f |}) (Feeds c);
     Tokens := Tokens c; SelfUpdate := SelfUpdate c;
     ConfigSponsorBlock := ConfigSponsorBlock c |}.

Definition LoadConfig (env : Env) (path : string) : Config + LoadError :=
  match ReadFile env path with
  | None => inr (ReadFailed path)
  | Some data =>
      match Unmarshal env data with
      | None => inr UnmarshalFailed
      | Some config =>
          let config := applyDefaults env path (setIDs config) in
          match validate config with
          | [] => inl config
          | errs => inr (Invalid errs)
          end
      end
  end.

(** One of the four modes the updater tests for. *)
Definition known_mode (mode : string) : Prop :=
  mode = "off" \/ mode = "require" \/ mode = "delay" \/ mode = "requiredelay".

(** A policy the planner understands. *)
Definition cut_or_keep (policy : string) : Prop := policy = "cut" \/ policy = "keep".

Definition categories_all (P : string -> Prop) (c : SponsorBlockCategories) : Prop :=
  P (Sponsors c) /\ P (Intermissions c) /\ P (Endcards c)
  /\ P (InteractionReminders c) /\ P (SelfPromotions c) /\ P (NonmusicSections c).

End ConfigFile.

(** ** Orchestrator *)

Module Orchestrator.

(** What the document builders and the root of file storage answer:
    [BuildXML] is [GetFeed] followed by feed.Build and the rendering of the
    podcast, [BuildOPML] is feed.BuildOPML, [RootCreateFails] tells whether
    [fs.Create] fails for a file of the root namespace. *)
Record Builders := mkBuilders {
  BuildXML : Feed -> Store -> result string;
  BuildOPML : Store -> result string;
  RootCreateFails : string -> bool;
}.

(** The state of a run and the documents at the root of file storage. *)
Record Run := mkRun {
  state : State;
  root : gmap string string;
}.

(** The error [Update] returns: the failed stage and its cause. *)
Inductive UpdateError :=
| UpdateFailed (cause : error)
| DownloadFailedStage (cause : error)
| XMLBuildFailed (cause : error)
| OPMLBuildFailed (cause : error).

Definition buildXML (b : Builders) (feedConfig : Feed) (db : Store)
    (files : gmap string string) : gmap string string * option error :=
  match BuildXML b feedConfig db with
  | Err e => (files, Some e)
  | Ok podcast =>
      let xmlName := FeedID feedConfig +:+ ".xml" in
      if RootCreateFails b xmlName then (files, Some (ErrCopy xmlName))
      else (<[xmlName := podcast]> files, None)
  end.

Definition buildOPML (b : Builders) (db : Store)
    (files : gmap string string) : gmap string string * option error :=
  match BuildOPML b db with
  | Err e => (files, Some e)
  | Ok opml =>
      let xmlName := "podsync" +:+ ".opml" in
      if RootCreateFails b xmlName then (files, Some (ErrCopy xmlName))
      else (<[xmlName := opml]> files, None)
  end.

(** [Update]: the five stages in order; a failure of one of the first four
    is returned, a failure of the cleaner is only logged. *)
Definition Update (w : World) (b : Builders) (fetched : result FeedResult)
    (feedConfig : Feed) (r : Run) : Run * option UpdateError :=
  match updateFeed fetched (db (state r)) with
  | Err e => (r, Some (UpdateFailed e))
  | Ok db1 =>
      match downloadEpisodes w feedConfig (with_db (state r) db1) with
      | (st2, Some e) => ({| state := st2; root := root r |}, Some (DownloadFailedStage e))
      | (st2, None) =>
          match buildXML b feedConfig (db st2) (root r) with
          | (files, Some e) => ({| state := st2; root := files |}, Some (XMLBuildFailed e))
          | (files, None) =>
              match buildOPML b (db st2) files with
              | (files, Some e) =>
                  ({| state := st2; root := files |}, Some (OPMLBuildFailed e))
              | (files, None) =>
                  ({| state := fst (cleanup w feedConfig st2); root := files |}, None)
              end
          end
      end
  end.

End Orchestrator.
Export Orchestrator.

(** ** Notions used to state the properties *)

(** A gate of the filter engine, in the specification's words: it passes
    on an empty pattern, on a pattern that does not compile, and otherwise
    when the match is what the polarity asks for. *)
Definition gate (ms : string -> string -> option bool)
    (pattern field : string) (negative : bool) : Prop :=
  pattern = "" \/ ms pattern field = None \/ ms pattern field = Some (negb negative).

(** The status an upserted episode ends with. *)
Definition status_or_new (stored : option Episode) : EpisodeStatus :=
  match stored with
  | Some e => Status e
  | None => EpisodeNew
  end.

Definition with_status (s : EpisodeStatus) (e : Episode) : Episode :=
  {| ID := ID e; Title := Title e; Description := Description e;
     PubDate := PubDate e; VideoURL := VideoURL e;
     Size := Size e; Status := s |}.

(** The last entry of a listing that carries the ID [k]. *)
Definition last_with (k : string) (l : list Episode) : option Episode :=
  last (filter (fun e => ID e = k) l).

(** [k] is stored as [New] or [Error] and the listing does not have it. *)
Definition stale (db : Store) (listing : list Episode) (k : string) : Prop :=
  exists e, db !! k = Some e
    /\ (Status e = EpisodeNew \/ Status e = EpisodeError)
    /\ k ∉ ID <$> listing.

(** No [Downloaded] or [Cleaned] episode of [db] is missing from [db'],
    and each keeps its status. *)
Definition survives (db db' : Store) : Prop :=
  forall k e, db !! k = Some e ->
    Status e = EpisodeDownloaded \/ Status e = EpisodeCleaned ->
    exists e', db' !! k = Some e' /\ Status e' = Status e.

#[global] Instance stale_dec db listing k : Decision (stale db listing k).
Proof.
  unfold stale. destruct (db !! k) as [e|].
  - destruct (decide ((Status e = EpisodeNew \/ Status e = EpisodeError)
                      /\ k ∉ ID <$> listing)) as [H|H].
    + left. by exists e.
    + right. intros [e' [[= <-] H']]. tauto.
  - right. by intros [e' [[=] _]].
Defined.

(** Go's [int] on the 64-bit targets. *)
Definition min_int : Z := -9223372036854775808.
Definition max_int : Z := 9223372036854775807.

(** An episode that the selection walk counts against the budget: its
    status is [New] or [Error] and the four filters accept it. *)
Definition eligible (w : World) (feedConfig : Feed) (e : Episode) : Prop :=
  (Status e = EpisodeNew \/ Status e = EpisodeError)
  /\ matchFilters (MatchString w) e (FeedFilters feedConfig) = true.

#[global] Instance eligible_dec w feedConfig e : Decision (eligible w feedConfig e).
Proof. unfold eligible. apply _. Defined.

(** An episode the walk looks at for download: [New] or [Error], whatever
    the filters say. *)
Definition considered (e : Episode) : Prop :=
  Status e = EpisodeNew \/ Status e = EpisodeError.

#[global] Instance considered_dec e : Decision (considered e).
Proof. unfold considered. apply _. Defined.

(** The reading of the budget under which every considered episode, matched
    or not, costs one unit. *)
Definition budget_counts_every_considered (w : World) (feedConfig : Feed)
    (db : Store) : Prop :=
  fst (selectCandidates w feedConfig db) =
  PageSize feedConfig - Z.of_nat (length (filter considered (WalkEpisodes db))).

(** The sponsor-segment gate, in the specification's words: mode [require]
    with no segment returned, or mode [requiredelay] with no segment
    returned and the delay not yet elapsed. *)
Definition deferred (w : World) (feedConfig : Feed) (e : Episode) : Prop :=
  (SponsorblockMode feedConfig = "require" /\ LookupSegments w e = [])
  \/ (SponsorblockMode feedConfig = "requiredelay" /\ LookupSegments w e = []
      /\ DelayPassed w e = false).

#[global] Instance deferred_dec w feedConfig e : Decision (deferred w feedConfig e).
Proof. unfold deferred. apply _. Defined.

(** The segments the scheduler holds for a candidate: none are fetched in
    mode [off]. *)
Definition segments_for (w : World) (feedConfig : Feed) (e : Episode) : list Segment :=
  if decide (SponsorblockMode feedConfig <> "off") then LookupSegments w e else [].

(** The candidate's blob is not in storage, and the segment gate lets it
    through: the downloader is called. *)
Definition attempted (w : World) (feedConfig : Feed) (e : Episode) (st : State) : Prop :=
  fsSize w st (EpisodeName w feedConfig e) = SizeNotExist
  /\ ~ deferred w feedConfig e.



(** The state in which the downloader answers: the segment lookup, if the
    mode asks for one, and the download call are on record. *)
Definition after_calls (w : World) (feedConfig : Feed) (e : Episode) (st : State) : State :=
  log (if decide (SponsorblockMode feedConfig <> "off")
       then log st (EvLookup (ID e)) else st)
      (EvDownload (ID e)).

(** The collaborator calls made between two states. *)
Definition new_events (st st' : State) : list Event :=
  drop (length (trace st)) (trace st').

(** What sort.Slice guarantees about two positions [a] before [b] of its
    result: [less b a] does not hold. *)
Definition in_order (less : Episode -> Episode -> bool) (a b : Episode) : Prop :=
  less b a = false.

#[global] Instance in_order_dec less a b : Decision (in_order less a b).
Proof. unfold in_order. apply _. Defined.

(** sort.Slice returns its input rearranged and in order. *)
Definition sorts (w : World) : Prop :=
  forall l, SortSlice w after l ≡ₚ l
            /\ StronglySorted (in_order after) (SortSlice w after l).

(** The [Downloaded] episodes, in walk order: the [list] of [cleanup]. *)
Definition downloaded_list (db : Store) : list Episode :=
  filter (fun e => Status e = EpisodeDownloaded) (WalkEpisodes db).

(** The blob of [e] can be deleted. *)
Definition deletable (w : World) (feedConfig : Feed) (e : Episode) : Prop :=
  DeleteFails w (EpisodeName w feedConfig e) = false.

#[global] Instance deletable_dec w feedConfig e : Decision (deletable w feedConfig e).
Proof. unfold deletable. apply _. Defined.

(** *** Segment planner *)

(** The category policy as a mapping: the policy string of each of the six
    categories the lookup asks for. *)
Definition policy_of (c : SponsorBlockCategories) (category : string) : option string :=
  if decide (category = "sponsor") then Some (Sponsors c)
  else if decide (category = "intro") then Some (Intermissions c)
  else if decide (category = "outro") then Some (Endcards c)
  else if decide (category = "interaction") then Some (InteractionReminders c)
  else if decide (category = "selfpromo") then Some (SelfPromotions c)
  else if decide (category = "music_offtopic") then Some (NonmusicSections c)
  else None.

(** The start and the end of a segment. *)
Definition bounds (s : Segment) : option (Q * Q) :=
  match SegmentBounds s with
  | s0 :: s1 :: _ => Some (s0, s1)
  | _ => None
  end.

(** The segments to remove: those whose policy is [cut]. *)
Definition cuts (c : SponsorBlockCategories) (segments : list Segment) : list (Q * Q) :=
  omap (fun s => if decide (policy_of c (Category s) = Some "cut") then bounds s else None)
    segments.

(** The planner in the specification's words: a [cut] segment closes the
    keep interval that starts at the cursor and moves the cursor to its
    end; a [keep] segment contributes nothing; the tail [(cursor, -1)]
    comes last. *)
Fixpoint keeps_of (cut : list (Q * Q)) (cursor : Q) : list (Q * Q) :=
  match cut with
  | [] => [(cursor, -1)%Q]
  | (s0, s1) :: rest => (cursor, s0) :: keeps_of rest s1
  end.

Definition plan_spec (c : SponsorBlockCategories) (segments : list Segment) : list (Q * Q) :=
  keeps_of (cuts c segments) 0%Q.

(** Every segment has a known category whose policy is [cut] or [keep],
    and carries its two bounds. *)
Definition well_formed (c : SponsorBlockCategories) (segments : list Segment) : Prop :=
  Forall (fun s =>
            (policy_of c (Category s) = Some "cut" \/ policy_of c (Category s) = Some "keep")
            /\ is_Some (bounds s)) segments.

(** Cut segments in ascending order and disjoint, none starting before
    [lo]: each ends no earlier than it starts and no later than the next
    one starts. *)
Fixpoint ascending (lo : Q) (cut : list (Q * Q)) : Prop :=
  match cut with
  | [] => True
  | (s0, s1) :: rest => (lo <= s0)%Q /\ (s0 <= s1)%Q /\ ascending s1 rest
  end.

(** [t] lies in the cut segment [[s0, s1)]. *)
Definition in_cut (x : Q * Q) (t : Q) : Prop := (fst x <= t)%Q /\ (t < snd x)%Q.

(** [t] lies in the keep interval; a negative end stands for the end of
    the media, as the filter-graph builder reads it. *)
Definition covers (duration : Q) (k : Q * Q) (t : Q) : Prop :=
  (fst k <= t)%Q /\ (t < (if Qle_bool 0 (snd k) then snd k else duration))%Q.

(** The claim's wording of the hypothesis on a list of cut segments: proper
    intervals of non-negative times, starts in ascending order, pairwise
    disjoint. *)
Definition proper (cut : list (Q * Q)) : Prop :=
  Forall (fun x => (0 <= fst x)%Q /\ (fst x < snd x)%Q) cut.

Definition ascending_starts (cut : list (Q * Q)) : Prop :=
  forall i j x y, (i < j)%nat -> cut !! i = Some x -> cut !! j = Some y ->
    (fst x <= fst y)%Q.

Definition disjoint (cut : list (Q * Q)) : Prop :=
  forall i j x y t, i <> j -> cut !! i = Some x -> cut !! j = Some y ->
    ~ (in_cut x t /\ in_cut y t).

(** *** Filter-graph builder *)

(** The bounds of a trim stage: the end is written for a non-negative end
    and left out for a negative one, as for the tail's [-1]. *)
Definition trim_bounds (seg : Q * Q) : string :=
  "start=" +:+ fmt_f (fst seg) +:+
  (if Qle_bool 0 (snd seg) then ":end=" +:+ fmt_f (snd seg) else "").

(** The audio and video trim stages of the interval at position [idx],
    without the closing semicolon. *)
Definition audio_trim (idx : nat) (seg : Q * Q) : string :=
  "[0:a]atrim=" +:+ trim_bounds seg +:+ ",asetpts=PTS-STARTPTS[s"
  +:+ fmt_d (Z.of_nat idx) +:+ "a]".

Definition video_trim (idx : nat) (seg : Q * Q) : string :=
  "[0:v]trim=" +:+ trim_bounds seg +:+ ",setpts=PTS-STARTPTS[s"
  +:+ fmt_d (Z.of_nat idx) +:+ "v]".

(** The trim stages in interval order: one audio stage per interval,
    followed by its video stage unless the feed is audio-only. *)
Fixpoint trim_stages (format : Format) (idx : nat) (keeps : list (Q * Q)) : list string :=
  match keeps with
  | [] => []
  | seg :: rest =>
      (audio_trim idx seg
       :: (if decide (format = FormatAudio) then [] else [video_trim idx seg]))
      ++ trim_stages format (S idx) rest
  end.

(** The segment labels the concatenation refers to, in interval order. *)
Fixpoint labels (format : Format) (idx : nat) (keeps : list (Q * Q)) : list string :=
  match keeps with
  | [] => []
  | _ :: rest =>
      ((if decide (format = FormatAudio) then []
        else ["[s" +:+ fmt_d (Z.of_nat idx) +:+ "v]"])
       ++ ["[s" +:+ fmt_d (Z.of_nat idx) +:+ "a]"])
      ++ labels format (S idx) rest
  end.

Fixpoint concat_strings (l : list string) : string :=
  match l with
  | [] => ""
  | s :: rest => s +:+ concat_strings rest
  end.

(** The concatenation stage: the labels, the stream counts and the output
    labels. *)
Definition concat_stage (format : Format) (keeps : list (Q * Q)) : string :=
  concat_strings (labels format 0 keeps)
  +:+ "concat=n=" +:+ fmt_d (Z.of_nat (length keeps))
  +:+ ":v=" +:+ (if decide (format = FormatAudio) then "0" else "1") +:+ ":a=1"
  +:+ (if decide (format = FormatAudio) then "" else "[outv]") +:+ "[outa]".

(** Stages written one after the other, each closed by a semicolon. *)
Definition stages_text (l : list string) : string :=
  concat_strings ((fun s => s +:+ ";") <$> l).

(** The stages of a filter graph: the pieces between semicolons. *)
Fixpoint split_stages (s : string) : list string :=
  match s with
  | EmptyString => [""]
  | String c rest =>
      if decide (c = ";"%char) then "" :: split_stages rest
      else match split_stages rest with
           | h :: t => String c h :: t
           | [] => [String c ""]
           end
  end.

Fixpoint has_semicolon (s : string) : bool :=
  match s with
  | EmptyString => false
  | String c rest => if decide (c = ";"%char) then true else has_semicolon rest
  end.

(** *** What the scheduler may change *)

(** Two records of the same episode: everything but status and size
    agrees. *)
Definition same_metadata (e e' : Episode) : Prop :=
  ID e' = ID e /\ Title e' = Title e /\ Description e' = Description e
  /\ PubDate e' = PubDate e /\ VideoURL e' = VideoURL e.

(** [db'] has the keys of [db], and each record is the old one or the same
    episode marked [Downloaded] or [Error]. *)
Definition rescheduled (db db' : Store) : Prop :=
  forall k,
    match db !! k with
    | Some e => exists e', db' !! k = Some e' /\ same_metadata e e'
                  /\ (e' = e \/ Status e' = EpisodeDownloaded \/ Status e' = EpisodeError)
    | None => db' !! k = None
    end.

(** *** What the cleaner may change *)

(** [db'] has the keys of [db], and each record is the old one or a
    [Downloaded] one made [Cleaned]. *)
Definition retired (db db' : Store) : Prop :=
  forall k,
    match db !! k with
    | Some e => db' !! k = Some e
                \/ (Status e = EpisodeDownloaded /\ db' !! k = Some (set_cleaned e))
    | None => db' !! k = None
    end.

(** The segments the planner removes, as the code decides it: every
    segment that no guard skips. *)
Definition removed (c : SponsorBlockCategories) (segments : list Segment) : list Segment :=
  filter (fun s => kept c s = false) segments.

(** *** What a whole run may not lose *)

(** Every [Downloaded] or [Cleaned] episode of [db] is still in [db'], and
    still [Downloaded] or [Cleaned]. *)
Definition finished_kept (db db' : Store) : Prop :=
  forall k e, db !! k = Some e ->
    Status e = EpisodeDownloaded \/ Status e = EpisodeCleaned ->
    exists e', db' !! k = Some e'
      /\ (Status e' = EpisodeDownloaded \/ Status e' = EpisodeCleaned).

(** ** Sample data *)

Module Sample.

(** A stand-in for the regexp engine on literal patterns: a pattern
    matches the strings that contain it, and the pattern "(" does not
    compile. *)
Fixpoint contains (pattern str : string) : bool :=
  if String.prefix pattern str then true
  else match str with
       | EmptyString => false
       | String _ rest => contains pattern rest
       end.

Definition literalMatch (pattern str : string) : option bool :=
  if decide (pattern = "(") then None else Some (contains pattern str).

Definition episode (id title : string) (pubDate : Z) (status : EpisodeStatus) : Episode :=
  {| ID := id; Title := title; Description := "about " +:+ title;
     PubDate := pubDate; VideoURL := "https://video.example/" +:+ id;
     Size := 0; Status := status |}.

Definition store_of (l : list Episode) : Store :=
  list_to_map ((fun e => (ID e, e)) <$> l).

Definition sponsor (s0 s1 : Q) : Segment :=
  {| SegmentBounds := [s0; s1]; UUID := "u"; Category := "sponsor" |}.

Definition intro (s0 s1 : Q) : Segment :=
  {| SegmentBounds := [s0; s1]; UUID := "v"; Category := "intro" |}.

Definition categories : SponsorBlockCategories :=
  {| Sponsors := "cut"; Intermissions := "keep"; Endcards := "keep";
     InteractionReminders := "keep"; SelfPromotions := "keep";
     NonmusicSections := "cut" |}.

(** A world whose answers depend on the episode's ID: "limited" is rate
    limited, "broken" fails to download, the IDs starting with "cut" have
    sponsor segments, "cutbad" makes the transcoder fail, and the blob
    "locked.mp4" cannot be deleted. *)
Definition world : World :=
  {| MatchString := literalMatch;
     EpisodeName := fun feedConfig e => ID e +:+ "." +:+ ext (FeedFormat feedConfig);
     StatFails := fun _ => false;
     LookupSegments := fun e =>
       if String.prefix "cut" (ID e) then [sponsor 10 20; intro 30 40; sponsor 50 60.5]
       else [];
     DelayPassed := fun e => PubDate e <? 100;
     Download := fun e =>
       if decide (ID e = "limited") then ErrTooManyRequests
       else if decide (ID e = "broken") then DownloadFailed
       else Fetched ("/tmp/raw/" +:+ ID e) 1000;
     TempDir := fun _ => Some "/tmp/podsync-ffmpeg-1";
     Join := fun dir name => dir +:+ "/" +:+ name;
     Transcode := fun args =>
       if decide (args !! 3%nat = Some "/tmp/raw/cutbad") then WaitFailed
       else Transcoded 800;
     OpenFails := fun _ => false;
     CreateFails := fun _ => false;
     DeleteFails := fun name => bool_decide (name = "locked.mp4");
     SortSlice := fun less l => merge_sort (in_order less) l |}.

Definition feed (mode : string) (pageSize keepLast : Z) (filters : Filters) : Feed :=
  {| FeedID := "feed"; PageSize := pageSize; FeedFormat := FormatVideo;
     FeedFilters := filters; KeepLast := keepLast;
     SponsorblockMode := mode; Categories := categories |}.

Definition no_filters : Filters :=
  {| FTitle := ""; FNotTitle := ""; FDescription := ""; FNotDescription := "" |}.

Definition state_of (l : list Episode) : State :=
  {| db := store_of l; blobs := ∅; trace := [] |}.

Definition five_new : list Episode :=
  [episode "a" "one" 1 EpisodeNew; episode "b" "two" 2 EpisodeNew;
   episode "c" "three" 3 EpisodeNew; episode "d" "four" 4 EpisodeNew;
   episode "e" "five" 5 EpisodeNew].

(** Feeds, candidates and batches used below. *)
Definition require_feed : Feed := feed "require" 10 0 no_filters.
Definition off_feed : Feed := feed "off" 10 0 no_filters.

Definition cutbad : Episode := episode "cutbad" "trimmed" 5 EpisodeNew.
Definition limited : Episode := episode "limited" "throttled" 7 EpisodeNew.
Definition plain : Episode := episode "plain" "no segments" 8 EpisodeNew.

Definition three_feed : Feed := feed "off" 3 0 no_filters.
Definition five_state : State := state_of five_new.

Definition plain_state : State := state_of [plain].

(** [plain] with its blob already in storage. *)
Definition stored_state : State :=
  {| db := store_of [plain]; blobs := {[ "plain.mp4" := 4242 ]}; trace := [] |}.

(** A store with one episode of every status, and a listing that has
    dropped all of them but "k". *)
Definition mixed_store : Store :=
  store_of [episode "n" "new" 1 EpisodeNew; episode "d" "done" 2 EpisodeDownloaded;
            episode "x" "failed" 3 EpisodeError; episode "c" "cleaned" 4 EpisodeCleaned;
            episode "k" "kept" 5 EpisodeError].

Definition listing : FeedResult :=
  {| ResultTitle := "channel";
     Episodes := [episode "k" "kept, renamed" 5 EpisodeNew;
                  episode "f" "fresh" 6 EpisodeNew] |}.

Definition title_filters : Filters :=
  {| FTitle := ""; FNotTitle := "live"; FDescription := ""; FNotDescription := "(" |}.

(** Ten [Downloaded] episodes and a [New] one; the blob of "locked" cannot
    be deleted. *)
Definition ten_downloaded : list Episode :=
  [episode "e0" "zero" 50 EpisodeDownloaded; episode "e1" "one" 10 EpisodeDownloaded;
   episode "e2" "two" 90 EpisodeDownloaded; episode "e3" "three" 30 EpisodeDownloaded;
   episode "e4" "four" 70 EpisodeDownloaded; episode "e5" "five" 20 EpisodeDownloaded;
   episode "e6" "six" 100 EpisodeDownloaded; episode "e7" "seven" 60 EpisodeDownloaded;
   episode "e8" "eight" 80 EpisodeDownloaded; episode "locked" "nine" 40 EpisodeDownloaded;
   episode "n" "new" 200 EpisodeNew].

Definition shelf : State :=
  {| db := store_of ten_downloaded;
     blobs := list_to_map ((fun e => (ID e +:+ ".mp4", 1000)) <$> ten_downloaded);
     trace := [] |}.

Definition open_shelf : State :=
  {| db := store_of (take 9 ten_downloaded);
     blobs := list_to_map ((fun e => (ID e +:+ ".mp4", 1000)) <$> take 9 ten_downloaded);
     trace := [] |}.

Definition keep4_feed : Feed := feed "off" 10 4 no_filters.
Definition keep10_feed : Feed := feed "off" 10 10 no_filters.

Definition segments : list Segment :=
  [sponsor 10 20; intro 30 40; sponsor 50 60.5].

Definition cut1 : Episode := episode "cut1" "with sponsors" 9 EpisodeNew.
Definition recent : Episode := episode "recent" "just out" 500 EpisodeNew.
Definition recent_state : State := state_of [recent].
Definition cut_state : State := state_of [cut1; plain].
Definition delay_feed : Feed := feed "delay" 10 0 no_filters.
Definition one_feed : Feed := feed "off" 1 0 no_filters.

Definition builders : Builders :=
  {| BuildXML := fun feedConfig db => Ok ("<rss>" +:+ FeedID feedConfig +:+ "</rss>");
     BuildOPML := fun db => Ok "<opml/>";
     RootCreateFails := fun _ => false |}.

Definition shelf_run : Run := {| state := shelf; root := ∅ |}.

Definition batch : list Episode :=
  [episode "a" "one" 1 EpisodeNew; limited; episode "c" "three" 3 EpisodeNew;
   episode "d" "four" 4 EpisodeNew; episode "e" "five" 5 EpisodeNew].

End Sample.

(** * Properties *)

(** ** Filter engine *)

Section FilterEngineFacts.

Variable ms : string -> string -> option bool.

Lemma matchRegexpFilter_gate pattern field negative :
  matchRegexpFilter ms pattern field negative = true <-> gate ms pattern field negative.
Proof.
  unfold matchRegexpFilter, gate.
  destruct (decide (pattern <> "")) as [Hne|He].
  - destruct (ms pattern field) as [m|].
    + destruct m, negative; simpl; split; intros H; try discriminate; auto;
        destruct H as [H|[H|H]]; congruence.
    + split; auto.
  - split; [|reflexivity]. intros _. left.
    destruct (decide (pattern = "")); tauto.
Qed.

(** C8: an episode is accepted exactly when the four gates pass, where a
    gate passes on an empty pattern, on a pattern that does not compile, on
    a match for a positive pattern and on a mismatch for a negative one; a
    [not_title] pattern that matches the title excludes the episode. *)
Theorem matchFilters_gates (episode : Episode) (filters : Filters) :
  (matchFilters ms episode filters = true <->
     gate ms (FTitle filters) (Title episode) false
     /\ gate ms (FNotTitle filters) (Title episode) true
     /\ gate ms (FDescription filters) (Description episode) false
     /\ gate ms (FNotDescription filters) (Description episode) true)
  /\ (forall pattern field negative,
        pattern = "" -> matchRegexpFilter ms pattern field negative = true)
  /\ (forall pattern field negative,
        ms pattern field = None -> matchRegexpFilter ms pattern field negative = true)
  /\ (FNotTitle filters <> "" ->
      ms (FNotTitle filters) (Title episode) = Some true ->
      matchFilters ms episode filters = false).
Proof.
  split; [|split; [|split]].
  - rewrite <- !matchRegexpFilter_gate. unfold matchFilters.
    destruct (matchRegexpFilter ms (FTitle filters) (Title episode) false);
    destruct (matchRegexpFilter ms (FNotTitle filters) (Title episode) true);
    destruct (matchRegexpFilter ms (FDescription filters) (Description episode) false);
    destruct (matchRegexpFilter ms (FNotDescription filters) (Description episode) true);
    simpl; intuition discriminate.
  - intros pattern field negative ->. reflexivity.
  - intros pattern field negative H. unfold matchRegexpFilter.
    rewrite H. destruct (decide (pattern <> "")); reflexivity.
  - intros Hne Hm. unfold matchFilters.
    assert (matchRegexpFilter ms (FNotTitle filters) (Title episode) true = false) as ->.
    { unfold matchRegexpFilter. rewrite Hm.
      destruct (decide (FNotTitle filters <> "")); [reflexivity | tauto]. }
    destruct (matchRegexpFilter ms (FTitle filters) (Title episode) false); reflexivity.
Qed.

End FilterEngineFacts.

Lemma matchFilters_gates_witness :
  FNotTitle Sample.title_filters <> ""
  /\ Sample.literalMatch (FNotTitle Sample.title_filters)
       (Title (Sample.episode "a" "a live show" 1 EpisodeNew)) = Some true
  /\ matchFilters Sample.literalMatch (Sample.episode "a" "a live show" 1 EpisodeNew)
       Sample.title_filters = false.
Proof.
  assert (FNotTitle Sample.title_filters <> "") as Hne by discriminate.
  assert (Sample.literalMatch (FNotTitle Sample.title_filters)
            (Title (Sample.episode "a" "a live show" 1 EpisodeNew)) = Some true)
    as Hm by (vm_compute; reflexivity).
  split; [exact Hne|]. split; [exact Hm|].
  exact (proj2 (proj2 (proj2 (matchFilters_gates Sample.literalMatch
           (Sample.episode "a" "a live show" 1 EpisodeNew) Sample.title_filters)))
           Hne Hm).
Defined.

(** A pattern that does not compile lets the episode through. *)
Example unparsable_pattern_passes :
  matchFilters Sample.literalMatch (Sample.episode "a" "a talk" 1 EpisodeNew)
    Sample.title_filters = true.
Proof. vm_compute. reflexivity. Qed.

(** ** Episode reconciler *)

Lemma keyed_store_of (l : list Episode) : keyed (Sample.store_of l).
Proof.
  intros k e H. unfold Sample.store_of in H.
  apply elem_of_list_to_map_2 in H.
  apply list_elem_of_fmap in H as [e' [[= -> ->] _]]. done.
Qed.

Lemma elem_of_WalkEpisodes (db : Store) (e : Episode) :
  e ∈ WalkEpisodes db <-> exists k, db !! k = Some e.
Proof.
  unfold WalkEpisodes. rewrite list_elem_of_fmap. split.
  - intros [[k e'] [-> Hin]]. exists k. by apply elem_of_map_to_list.
  - intros [k Hk]. exists (k, e). split; [done|]. by apply elem_of_map_to_list.
Qed.

Lemma elem_of_collect (l : list Episode) (s : gset string) (k : string) :
  k ∈ foldl collectCandidate s l <->
  k ∈ s \/ exists e, e ∈ l /\ ID e = k
                     /\ Status e <> EpisodeDownloaded /\ Status e <> EpisodeCleaned.
Proof.
  revert s. induction l as [|e l IH]; intros s; simpl.
  - split; [tauto|]. intros [H|[e [H _]]]; [done|]. by apply elem_of_nil in H.
  - rewrite IH. unfold collectCandidate. split.
    + intros [H|[e' [Hin H]]].
      * destruct (decide _) as [Hd|Hd]; [|tauto].
        apply elem_of_union in H as [H|H]; [|tauto].
        apply elem_of_singleton in H. right. exists e.
        split; [apply elem_of_cons; by left|]. split; [done|]. tauto.
      * right. exists e'. split; [apply elem_of_cons; by right | done].
    + intros [H|[e' [Hin H]]].
      * left. destruct (decide _); [apply elem_of_union; by right | done].
      * apply elem_of_cons in Hin as [->|Hin].
        -- left. destruct (decide _) as [Hd|Hd]; [|tauto].
           apply elem_of_union. left. apply elem_of_singleton. by destruct H.
        -- right. by exists e'.
Qed.

Lemma elem_of_strike (l : list Episode) (s : gset string) (k : string) :
  k ∈ foldl (fun s episode => s ∖ {[ID episode]}) s l <-> k ∈ s /\ k ∉ ID <$> l.
Proof.
  revert s. induction l as [|e l IH]; intros s; simpl.
  - split; [|tauto]. intros H. split; [done|]. by intros ?%elem_of_nil.
  - rewrite IH, elem_of_difference, elem_of_singleton, not_elem_of_cons. tauto.
Qed.

Lemma deleteAll_lookup (ids : list string) (db : Store) :
  exists db', deleteAll db ids = Ok db'
    /\ forall k, db' !! k = if decide (k ∈ ids) then None else db !! k.
Proof.
  revert db. induction ids as [|id ids IH]; intros db; simpl.
  - exists db. split; [done|]. intros k.
    destruct (decide (k ∈ @nil string)) as [H|H]; [|done].
    by apply elem_of_nil in H.
  - destruct (IH (delete id db)) as [db' [Hd Hl]]. exists db'. split; [done|].
    intros k. rewrite Hl.
    destruct (decide (k ∈ ids)) as [H|H]; destruct (decide (k ∈ id :: ids)) as [H'|H'];
      try done.
    + exfalso. apply H'. apply elem_of_cons. tauto.
    + apply elem_of_cons in H' as [->|H']; [|done]. apply lookup_delete_eq.
    + apply lookup_delete_ne. intros ->. apply H'. apply elem_of_cons. tauto.
Qed.

Lemma upsert_lookup (db : Store) (r : Episode) (k : string) :
  upsert db r !! k =
  if decide (ID r = k) then Some (with_status (status_or_new (db !! k)) r)
  else db !! k.
Proof.
  unfold upsert. destruct (decide (ID r = k)) as [<-|Hne].
  - destruct (db !! ID r) as [stored|]; by rewrite lookup_insert_eq.
  - destruct (db !! ID r) as [stored|]; by rewrite lookup_insert_ne.
Qed.

Lemma AddFeed_lookup (l : list Episode) (db : Store) (k : string) :
  foldl upsert db l !! k =
  match last_with k l with
  | Some r => Some (with_status (status_or_new (db !! k)) r)
  | None => db !! k
  end.
Proof.
  revert db. induction l as [|r l IH]; intros db; [done|].
  simpl. rewrite IH, upsert_lookup. unfold last_with.
  destruct (decide (ID r = k)) as [Hk|Hk].
  - rewrite filter_cons_True by done. simpl.
    destruct (filter (λ e : Episode, ID e = k) l) as [|x xs] eqn:Hf; [done|].
    change (last (r :: x :: xs)) with (last (x :: xs)).
    destruct (last (x :: xs)) eqn:Hl; [done|]. by apply last_None in Hl.
  - by rewrite filter_cons_False.
Qed.

Lemma last_with_None (k : string) (l : list Episode) :
  last_with k l = None <-> k ∉ ID <$> l.
Proof.
  unfold last_with. rewrite last_None. split.
  - intros Hf [e [-> Hin]]%list_elem_of_fmap.
    assert (e ∈ filter (λ e' : Episode, ID e' = ID e) l) as H
      by (by apply list_elem_of_filter).
    rewrite Hf in H. by apply elem_of_nil in H.
  - intros Hn. apply elem_of_nil_inv. intros e [He Hin]%list_elem_of_filter.
    apply Hn. apply list_elem_of_fmap. by exists e.
Qed.

Lemma last_with_ID (k : string) (l : list Episode) (r : Episode) :
  last_with k l = Some r -> ID r = k.
Proof.
  unfold last_with. intros H%last_Some_elem_of.
  by apply list_elem_of_filter in H as [H _].
Qed.

(** What [updateFeed] leaves under each key. *)
Lemma updateFeed_lookup (res : FeedResult) (db : Store) :
  keyed db ->
  exists db', updateFeed (Ok res) db = Ok db'
    /\ forall k, db' !! k =
         if decide (stale db (Episodes res) k) then None
         else foldl upsert db (Episodes res) !! k.
Proof.
  intros Hk. unfold updateFeed, AddFeed. simpl.
  destruct (deleteAll_lookup
    (elements (foldl (fun s episode => s ∖ {[ID episode]})
       (foldl collectCandidate ∅ (WalkEpisodes db)) (Episodes res)))
    (foldl upsert db (Episodes res))) as [db' [Hd Hl]].
  exists db'. split; [done|]. intros k. rewrite Hl.
  assert (k ∈ elements (foldl (fun s episode => s ∖ {[ID episode]})
       (foldl collectCandidate ∅ (WalkEpisodes db)) (Episodes res))
          <-> stale db (Episodes res) k) as Hiff.
  { rewrite elem_of_elements, elem_of_strike, elem_of_collect. unfold stale. split.
    - intros [[H|[e [Hin [Hid Hs]]]] Hn]; [by apply not_elem_of_empty in H|].
      apply elem_of_WalkEpisodes in Hin as [k' Hk'].
      assert (k' = k) as -> by (rewrite <- (Hk _ _ Hk'); done).
      exists e. split; [done|]. split; [|done].
      destruct (Status e); tauto.
    - intros [e [He [Hs Hn]]]. split; [|done]. right. exists e.
      split; [apply elem_of_WalkEpisodes; by exists k|].
      split; [by apply Hk|]. destruct Hs as [-> | ->]; done. }
  destruct (decide (k ∈ _)) as [H1|H1]; destruct (decide (stale _ _ _)) as [H2|H2];
    tauto.
Qed.

Lemma updateFeed_keyed (res : FeedResult) (db db' : Store) :
  keyed db -> updateFeed (Ok res) db = Ok db' -> keyed db'.
Proof.
  intros Hk Hu. destruct (updateFeed_lookup res db Hk) as [db2 [Hu2 Hl]].
  rewrite Hu in Hu2. injection Hu2 as <-.
  intros k e. rewrite Hl. destruct (decide _); [done|].
  rewrite AddFeed_lookup.
  destruct (last_with k (Episodes res)) as [r|] eqn:Hlast.
  - intros [= <-]. simpl. by apply last_with_ID in Hlast.
  - apply Hk.
Qed.

(** C1: reconciliation succeeds, and a stored episode is gone afterwards
    exactly when it was [New] or [Error] and its ID is not in the listing;
    a [Downloaded] or [Cleaned] episode is still there. *)
Theorem updateFeed_deletes_iff (res : FeedResult) (db : Store) :
  keyed db ->
  exists db', updateFeed (Ok res) db = Ok db'
    /\ (forall k e, db !! k = Some e ->
          (db' !! k = None <->
           (Status e = EpisodeNew \/ Status e = EpisodeError)
           /\ ID e ∉ ID <$> Episodes res))
    /\ (forall k e, db !! k = Some e ->
          Status e = EpisodeDownloaded \/ Status e = EpisodeCleaned ->
          is_Some (db' !! k)).
Proof.
  intros Hk. destruct (updateFeed_lookup res db Hk) as [db' [Hu Hl]].
  exists db'. split; [done|].
  assert (forall k e, db !! k = Some e ->
          (db' !! k = None <->
           (Status e = EpisodeNew \/ Status e = EpisodeError)
           /\ ID e ∉ ID <$> Episodes res)) as Hiff.
  { intros k e He. rewrite (Hk _ _ He), Hl.
    destruct (decide (stale db (Episodes res) k)) as [Hs|Hs].
    - split; [|done]. intros _. destruct Hs as [e' [He' Hs]].
      rewrite He in He'. by injection He' as <-.
    - split.
      + rewrite AddFeed_lookup, He. by destruct (last_with k (Episodes res)).
      + intros H. exfalso. apply Hs. by exists e. }
  split; [done|].
  intros k e He Hs. destruct (db' !! k) eqn:Hd; [by eexists|].
  apply (Hiff _ _ He) in Hd as [[Hn|Hn] _]; destruct Hs as [Hs|Hs]; congruence.
Qed.

Lemma updateFeed_deletes_iff_witness :
  keyed Sample.mixed_store
  /\ exists db', updateFeed (Ok Sample.listing) Sample.mixed_store = Ok db'
    /\ (forall k e, Sample.mixed_store !! k = Some e ->
          (db' !! k = None <->
           (Status e = EpisodeNew \/ Status e = EpisodeError)
           /\ ID e ∉ ID <$> Episodes Sample.listing))
    /\ (forall k e, Sample.mixed_store !! k = Some e ->
          Status e = EpisodeDownloaded \/ Status e = EpisodeCleaned ->
          is_Some (db' !! k)).
Proof.
  assert (keyed Sample.mixed_store) as Hk by apply keyed_store_of.
  split; [exact Hk|].
  exact (updateFeed_deletes_iff Sample.listing Sample.mixed_store Hk).
Defined.

(** On the sample store: "n" and "x" are deleted, "d" and "c" stay, "k"
    is refreshed with its status kept, "f" enters as [New]. *)
Example updateFeed_sample :
  exists db', updateFeed (Ok Sample.listing) Sample.mixed_store = Ok db'
    /\ db' !! "n" = None /\ db' !! "x" = None
    /\ db' !! "d" = Sample.mixed_store !! "d"
    /\ db' !! "c" = Sample.mixed_store !! "c"
    /\ db' !! "k" = Some (Sample.episode "k" "kept, renamed" 5 EpisodeError)
    /\ db' !! "f" = Some (Sample.episode "f" "fresh" 6 EpisodeNew).
Proof. eexists. split; [vm_compute; reflexivity|]. vm_compute. repeat split. Qed.

Lemma updateFeed_survives (res : FeedResult) (db db' : Store) :
  keyed db -> updateFeed (Ok res) db = Ok db' -> survives db db'.
Proof.
  intros Hk Hu. destruct (updateFeed_lookup res db Hk) as [db2 [Hu2 Hl]].
  rewrite Hu in Hu2. injection Hu2 as <-.
  intros k e He Hs. rewrite Hl.
  destruct (decide (stale db (Episodes res) k)) as [[e' [He' [Hn _]]]|_].
  - rewrite He in He'. injection He' as <-.
    destruct Hn as [Hn|Hn], Hs as [Hs|Hs]; congruence.
  - rewrite AddFeed_lookup, He.
    destruct (last_with k (Episodes res)) as [r|]; eexists; split; done.
Qed.

(** C2: running the reconciler a second time with the same listing leaves
    the store of the first run as it is, and neither run removes a
    [Downloaded] or [Cleaned] episode. *)
Theorem updateFeed_idempotent (res : FeedResult) (db : Store) :
  keyed db ->
  exists db1 db2,
    updateFeed (Ok res) db = Ok db1
    /\ updateFeed (Ok res) db1 = Ok db2
    /\ db2 = db1
    /\ survives db db1 /\ survives db1 db2.
Proof.
  intros Hk. destruct (updateFeed_lookup res db Hk) as [db1 [Hu1 Hl1]].
  pose proof (updateFeed_keyed _ _ _ Hk Hu1) as Hk1.
  destruct (updateFeed_lookup res db1 Hk1) as [db2 [Hu2 Hl2]].
  exists db1, db2. split; [done|]. split; [done|].
  split; [|split; eauto using updateFeed_survives].
  apply map_eq. intros k. rewrite Hl2.
  destruct (decide (stale db1 (Episodes res) k)) as [[e [He [Hs Hn]]]|_].
  - exfalso. rewrite Hl1 in He.
    destruct (decide (stale db (Episodes res) k)) as [|Hns]; [done|].
    rewrite AddFeed_lookup in He.
    rewrite (proj2 (last_with_None k (Episodes res)) Hn) in He.
    apply Hns. by exists e.
  - rewrite AddFeed_lookup.
    destruct (last_with k (Episodes res)) as [r|] eqn:Hlast; [|done].
    rewrite Hl1.
    destruct (decide (stale db (Episodes res) k)) as [[e [_ [_ Hn]]]|_].
    + apply last_with_None in Hn. congruence.
    + by rewrite AddFeed_lookup, Hlast.
Qed.

(** ** Download scheduler: candidate selection *)

Lemma wrap_int_small (z : Z) : min_int <= z <= max_int -> wrap_int z = z.
Proof.
  unfold wrap_int, min_int, max_int. intros H.
  rewrite Z.mod_small by lia. lia.
Qed.

Lemma selectStep_skip (w : World) (feedConfig : Feed) (acc : Z * list Episode)
    (e : Episode) :
  ~ eligible w feedConfig e -> selectStep w feedConfig acc e = acc.
Proof.
  intros Hn. unfold selectStep. destruct acc as [p dl].
  destruct (decide (Status e <> EpisodeNew /\ Status e <> EpisodeError)) as [|Hs]; [done|].
  destruct (matchFilters (MatchString w) e (FeedFilters feedConfig)) eqn:Hm; [|done].
  exfalso. apply Hn. split; [|done].
  destruct (Status e); try tauto; exfalso; apply Hs; split; discriminate.
Qed.

Lemma selectStep_count (w : World) (feedConfig : Feed) (p : Z) (dl : list Episode)
    (e : Episode) :
  eligible w feedConfig e -> min_int < p <= max_int ->
  selectStep w feedConfig (p, dl) e =
  (p - 1, if p - 1 <=? 0 then dl else dl ++ [e]).
Proof.
  intros [Hs Hm] Hp. unfold selectStep.
  destruct (decide (Status e <> EpisodeNew /\ Status e <> EpisodeError)) as [[H1 H2]|_].
  { destruct Hs; contradiction. }
  rewrite Hm. simpl. rewrite wrap_int_small by (unfold min_int, max_int in *; lia).
  by destruct (p - 1 <=? 0).
Qed.

(** The walk in closed form, as long as the counter does not wrap. *)
Lemma selectStep_fold (w : World) (feedConfig : Feed) (l : list Episode) :
  forall (p : Z) (dl : list Episode),
    min_int + Z.of_nat (length (filter (eligible w feedConfig) l)) <= p <= max_int ->
    foldl (selectStep w feedConfig) (p, dl) l =
    (p - Z.of_nat (length (filter (eligible w feedConfig) l)),
     dl ++ take (Z.to_nat (p - 1)) (filter (eligible w feedConfig) l)).
Proof.
  induction l as [|e l IH]; intros p dl Hp; cbn [foldl].
  - rewrite filter_nil. simpl. by rewrite take_nil, Z.sub_0_r, app_nil_r.
  - destruct (decide (eligible w feedConfig e)) as [He|He].
    + rewrite filter_cons_True in * by done. simpl length in *.
      rewrite selectStep_count by (done || lia).
      rewrite IH by lia. f_equal; [lia|].
      destruct (p - 1 <=? 0) eqn:Hle.
      * apply Z.leb_le in Hle.
        replace (Z.to_nat (p - 1 - 1)) with 0%nat by lia.
        replace (Z.to_nat (p - 1)) with 0%nat by lia. done.
      * apply Z.leb_gt in Hle.
        replace (Z.to_nat (p - 1)) with (S (Z.to_nat (p - 1 - 1))) by lia.
        simpl. by rewrite <- app_assoc.
    + rewrite filter_cons_False in * by done.
      rewrite selectStep_skip by done. by apply IH.
Qed.

Lemma selectCandidates_take (w : World) (feedConfig : Feed) (db : Store) :
  min_int + Z.of_nat (length (filter (eligible w feedConfig) (WalkEpisodes db)))
    <= PageSize feedConfig <= max_int ->
  selectCandidates w feedConfig db =
  (PageSize feedConfig
     - Z.of_nat (length (filter (eligible w feedConfig) (WalkEpisodes db))),
   take (Z.to_nat (PageSize feedConfig - 1))
     (filter (eligible w feedConfig) (WalkEpisodes db))).
Proof. intros H. unfold selectCandidates. by rewrite selectStep_fold. Qed.

(** C3, as stated, fails: a [New] episode that the title filter rejects is
    considered but does not cost a unit of the budget. *)
Lemma budget_ignores_filtered_out :
  ~ budget_counts_every_considered Sample.world
      (Sample.feed "off" 3 0
         {| FTitle := "keep"; FNotTitle := ""; FDescription := ""; FNotDescription := "" |})
      (Sample.store_of [Sample.episode "a" "other" 1 EpisodeNew]).
Proof. unfold budget_counts_every_considered. vm_compute. discriminate. Qed.

(** With a budget of 3 and five eligible episodes the queue holds two. *)
Example budget_three_of_five :
  length (snd (selectCandidates Sample.world (Sample.feed "off" 3 0 Sample.no_filters)
                 (Sample.store_of Sample.five_new))) = 2%nat.
Proof. vm_compute. reflexivity. Qed.

(** ** Download scheduler: processing *)

Lemma UpdateEpisode_Some (db : Store) (id : string) (cb : Episode -> Episode)
    (e : Episode) :
  db !! id = Some e -> UpdateEpisode db id cb = Ok (<[id := cb e]> db).
Proof. intros H. unfold UpdateEpisode. by rewrite H. Qed.

Lemma UpdateEpisode_other (db db' : Store) (id k : string) (cb : Episode -> Episode) :
  UpdateEpisode db id cb = Ok db' -> k <> id -> db' !! k = db !! k.
Proof.
  unfold UpdateEpisode. destruct (db !! id); [|done].
  intros [= <-] Hne. by rewrite lookup_insert_ne.
Qed.

Lemma fsCreate_db (w : World) (st : State) (name : string) (size : Z) :
  db (fst (fsCreate w st name size)) = db st.
Proof. unfold fsCreate. by destruct (CreateFails w name). Qed.

Lemma storeProcessed_db (w : World) (feedConfig : Feed) (e : Episode)
    (path : string) (segments : list Segment) (st : State) :
  db (fst (storeProcessed w feedConfig e path segments st)) = db st.
Proof.
  unfold storeProcessed.
  destruct (planKeeps _ _); [|done]. destruct (TempDir w e); [|done].
  destruct (Transcode w _); try done.
  destruct (OpenFails w _); [done|]. by rewrite fsCreate_db.
Qed.

Lemma storeAndMark_other (w : World) (feedConfig : Feed) (e : Episode)
    (path : string) (rawSize : Z) (segments : list Segment) (st : State) (k : string) :
  k <> ID e ->
  db (fst (storeAndMark w feedConfig e path rawSize segments st)) !! k = db st !! k.
Proof.
  intros Hne. unfold storeAndMark.
  destruct (decide (length segments = 0%nat)) as [Hs|Hs].
  - pose proof (fsCreate_db w st (EpisodeName w feedConfig e) rawSize) as Hdb.
    destruct (fsCreate w st (EpisodeName w feedConfig e) rawSize) as [st1 [size|err]];
      simpl in *; [|by rewrite Hdb].
    destruct (UpdateEpisode (db st1) (ID e) (set_downloaded size)) as [db'|err] eqn:Hu;
      simpl; [|by rewrite Hdb].
    rewrite (UpdateEpisode_other _ _ _ _ _ Hu Hne). by rewrite Hdb.
  - pose proof (storeProcessed_db w feedConfig e path segments st) as Hdb.
    destruct (storeProcessed w feedConfig e path segments st) as [st1 [size|err]];
      simpl in *; [|by rewrite Hdb].
    destruct (UpdateEpisode (db st1) (ID e) (set_downloaded size)) as [db'|err] eqn:Hu;
      simpl; [|by rewrite Hdb].
    rewrite (UpdateEpisode_other _ _ _ _ _ Hu Hne). by rewrite Hdb.
Qed.

(** Processing a candidate touches no other episode of the store. *)
Lemma processEpisode_other (w : World) (feedConfig : Feed) (e : Episode)
    (st : State) (k : string) :
  k <> ID e -> db (fst (processEpisode w feedConfig e st)) !! k = db st !! k.
Proof.
  intros Hne. unfold processEpisode.
  destruct (fsSize w st (EpisodeName w feedConfig e)) as [size| |].
  - destruct (UpdateEpisode (db st) (ID e) (set_downloaded size)) as [db'|err] eqn:Hu;
      simpl; [|done].
    by rewrite (UpdateEpisode_other _ _ _ _ _ Hu Hne).
  - destruct (decide (SponsorblockMode feedConfig <> "off")) as [Hm|Hm].
    + repeat (destruct (decide _); [done|]).
      destruct (Download w e) as [path rawSize| |]; [| done |].
      * by rewrite storeAndMark_other.
      * destruct (UpdateEpisode _ (ID e) set_error) as [db'|err] eqn:Hu; simpl; [|done].
        by rewrite (UpdateEpisode_other _ _ _ _ _ Hu Hne).
    + repeat (destruct (decide _); [done|]).
      destruct (Download w e) as [path rawSize| |]; [| done |].
      * by rewrite storeAndMark_other.
      * destruct (UpdateEpisode _ (ID e) set_error) as [db'|err] eqn:Hu; simpl; [|done].
        by rewrite (UpdateEpisode_other _ _ _ _ _ Hu Hne).
  - done.
Qed.

Lemma processAll_other (w : World) (feedConfig : Feed) (l : list Episode) :
  forall (st : State) (k : string),
    k ∉ ID <$> l -> db (fst (processAll w feedConfig l st)) !! k = db st !! k.
Proof.
  induction l as [|e l IH]; intros st k Hk; [done|].
  simpl in Hk. apply not_elem_of_cons in Hk as [Hne Hk]. cbn [processAll].
  pose proof (processEpisode_other w feedConfig e st k Hne) as He.
  destruct (processEpisode w feedConfig e st) as [st' [| |err]]; simpl in *; try done.
  by rewrite IH.
Qed.

Lemma downloadEpisodes_other (w : World) (feedConfig : Feed) (st : State) (k : string) :
  k ∉ ID <$> snd (selectCandidates w feedConfig (db st)) ->
  db (fst (downloadEpisodes w feedConfig st)) !! k = db st !! k.
Proof.
  unfold downloadEpisodes.
  destruct (selectCandidates w feedConfig (db st)) as [p dl]. simpl. intros Hk.
  destruct (decide (0 < length dl)%nat); [|done]. by apply processAll_other.
Qed.

(** C3, amended: the budget is charged once for every [New] or [Error]
    episode that passes the filters and for no other; the queue is an
    initial part of those episodes in store order, never longer than the
    budget; and an episode that is not queued is stored unchanged after the
    run. *)
Theorem selection_charges_eligible (w : World) (feedConfig : Feed) (st : State) :
  keyed (db st) ->
  min_int + Z.of_nat (length (filter (eligible w feedConfig) (WalkEpisodes (db st))))
    <= PageSize feedConfig <= max_int ->
  fst (selectCandidates w feedConfig (db st)) =
    PageSize feedConfig
    - Z.of_nat (length (filter (eligible w feedConfig) (WalkEpisodes (db st))))
  /\ snd (selectCandidates w feedConfig (db st))
       `prefix_of` filter (eligible w feedConfig) (WalkEpisodes (db st))
  /\ Z.of_nat (length (snd (selectCandidates w feedConfig (db st))))
       <= Z.max 0 (PageSize feedConfig)
  /\ forall e, e ∈ WalkEpisodes (db st) ->
       e ∉ snd (selectCandidates w feedConfig (db st)) ->
       db (fst (downloadEpisodes w feedConfig st)) !! ID e = Some e.
Proof.
  intros Hk Hp. rewrite selectCandidates_take by done. simpl.
  split; [done|]. split; [apply prefix_take|]. split.
  { rewrite length_take. lia. }
  intros e Hin Hq. rewrite downloadEpisodes_other.
  - apply elem_of_WalkEpisodes in Hin as [k He]. by rewrite (Hk _ _ He).
  - rewrite selectCandidates_take by done. simpl.
    intros [q [Hid Hq']]%list_elem_of_fmap. apply Hq.
    assert (q ∈ WalkEpisodes (db st)) as Hqw.
    { apply elem_of_take in Hq' as [i [Hq' _]].
      apply list_elem_of_lookup_2 in Hq'. by apply list_elem_of_filter in Hq' as [_ ?]. }
    apply elem_of_WalkEpisodes in Hin as [k He].
    apply elem_of_WalkEpisodes in Hqw as [k' Hq2].
    pose proof (Hk _ _ He) as H1. pose proof (Hk _ _ Hq2) as H2. simpl in *.
    assert (e = q) as -> by congruence. done.
Qed.

Lemma processEpisode_deferred (w : World) (feedConfig : Feed) (e : Episode) (st : State) :
  fsSize w st (EpisodeName w feedConfig e) = SizeNotExist ->
  deferred w feedConfig e ->
  processEpisode w feedConfig e st = (log st (EvLookup (ID e)), Continue).
Proof.
  intros Hs Hd. unfold processEpisode. rewrite Hs.
  destruct (decide (SponsorblockMode feedConfig <> "off")) as [Hm|Hm].
  - destruct Hd as [[Hr Hl]|[Hr [Hl Hp]]]; rewrite Hl; simpl.
    + destruct (decide (SponsorblockMode feedConfig = "require" /\ 0%nat = 0%nat));
        [done | tauto].
    + destruct (decide (SponsorblockMode feedConfig = "require" /\ 0%nat = 0%nat));
        [done|].
      destruct (decide (SponsorblockMode feedConfig = "requiredelay"
                        /\ 0%nat = 0%nat /\ DelayPassed w e = false)); [done | tauto].
  - exfalso. apply Hm. destruct Hd as [[Hr _]|[Hr _]]; rewrite Hr; discriminate.
Qed.

Lemma processEpisode_attempted (w : World) (feedConfig : Feed) (e : Episode) (st : State) :
  attempted w feedConfig e st ->
  processEpisode w feedConfig e st =
  match Download w e with
  | ErrTooManyRequests => (after_calls w feedConfig e st, Break)
  | DownloadFailed =>
      match UpdateEpisode (db st) (ID e) set_error with
      | Ok db' => (with_db (after_calls w feedConfig e st) db', Continue)
      | Err err => (after_calls w feedConfig e st, Return err)
      end
  | Fetched path rawSize =>
      storeAndMark w feedConfig e path rawSize (segments_for w feedConfig e)
        (after_calls w feedConfig e st)
  end.
Proof.
  intros [Hs Hd]. unfold processEpisode, after_calls, segments_for. rewrite Hs.
  destruct (decide (SponsorblockMode feedConfig <> "off")) as [Hm|Hm].
  - destruct (decide (SponsorblockMode feedConfig = "require"
                      /\ length (LookupSegments w e) = 0%nat)) as [[H1 H2]|_].
    { exfalso. apply Hd. left. split; [done|]. by apply nil_length_inv. }
    destruct (decide (SponsorblockMode feedConfig = "requiredelay"
                      /\ length (LookupSegments w e) = 0%nat
                      /\ DelayPassed w e = false)) as [[H1 [H2 H3]]|_].
    { exfalso. apply Hd. right. split; [done|]. split; [|done]. by apply nil_length_inv. }
    done.
  - assert (SponsorblockMode feedConfig = "off") as Hoff.
    { destruct (decide (SponsorblockMode feedConfig = "off")); tauto. }
    destruct (decide (SponsorblockMode feedConfig = "require" /\ _)) as [[H1 _]|_].
    { rewrite Hoff in H1. discriminate. }
    destruct (decide (SponsorblockMode feedConfig = "requiredelay" /\ _)) as [[H1 _]|_].
    { rewrite Hoff in H1. discriminate. }
    done.
Qed.




(** The run of that batch ends with the transcoder's error, the failed
    episode still [New] and the next candidate not processed. *)
Example transcoder_failure_aborts :
  let r := processAll Sample.world Sample.require_feed [Sample.cutbad; Sample.plain]
             (Sample.state_of [Sample.cutbad; Sample.plain]) in
  snd r = Some ErrFfmpeg
  /\ Status <$> db (fst r) !! "cutbad" = Some EpisodeNew
  /\ Status <$> db (fst r) !! "plain" = Some EpisodeNew.
Proof. vm_compute. repeat split. Qed.

(** A rate-limit error on the second of five candidates: the first is
    downloaded, the others keep their status, no error is returned. *)
Example rate_limit_on_second_of_five :
  let r := processAll Sample.world Sample.off_feed Sample.batch
             (Sample.state_of Sample.batch) in
  snd r = None
  /\ Status <$> db (fst r) !! "a" = Some EpisodeDownloaded
  /\ forall k, k ∈ ["limited"; "c"; "d"; "e"] ->
       db (fst r) !! k = Sample.store_of Sample.batch !! k.
Proof.
  split; [vm_compute; reflexivity|]. split; [vm_compute; reflexivity|].
  intros k Hk. repeat (apply elem_of_cons in Hk as [->|Hk]; [vm_compute; reflexivity|]).
  by apply elem_of_nil in Hk.
Qed.


Lemma selection_charges_eligible_witness :
  keyed (db Sample.five_state)
  /\ min_int + Z.of_nat (length (filter (eligible Sample.world Sample.three_feed)
                                   (WalkEpisodes (db Sample.five_state))))
       <= PageSize Sample.three_feed <= max_int
  /\ fst (selectCandidates Sample.world Sample.three_feed (db Sample.five_state)) =
       PageSize Sample.three_feed
       - Z.of_nat (length (filter (eligible Sample.world Sample.three_feed)
                             (WalkEpisodes (db Sample.five_state))))
  /\ snd (selectCandidates Sample.world Sample.three_feed (db Sample.five_state))
       `prefix_of` filter (eligible Sample.world Sample.three_feed)
                     (WalkEpisodes (db Sample.five_state))
  /\ Z.of_nat (length (snd (selectCandidates Sample.world Sample.three_feed
                              (db Sample.five_state))))
       <= Z.max 0 (PageSize Sample.three_feed)
  /\ forall e, e ∈ WalkEpisodes (db Sample.five_state) ->
       e ∉ snd (selectCandidates Sample.world Sample.three_feed (db Sample.five_state)) ->
       db (fst (downloadEpisodes Sample.world Sample.three_feed Sample.five_state))
         !! ID e = Some e.
Proof.
  assert (keyed (db Sample.five_state)) as Hk by apply keyed_store_of.
  assert (min_int + Z.of_nat (length (filter (eligible Sample.world Sample.three_feed)
                                        (WalkEpisodes (db Sample.five_state))))
          <= PageSize Sample.three_feed <= max_int) as Hp.
  { vm_compute. split; intros H; discriminate H. }
  split; [exact Hk|]. split; [exact Hp|].
  exact (selection_charges_eligible Sample.world Sample.three_feed Sample.five_state Hk Hp).
Defined.

Lemma fsCreate_trace (w : World) (st : State) (name : string) (size : Z) :
  trace st `prefix_of` trace (fst (fsCreate w st name size)).
Proof.
  unfold fsCreate. destruct (CreateFails w name); simpl; [done|].
  by apply prefix_app_r.
Qed.

Lemma storeProcessed_trace (w : World) (feedConfig : Feed) (e : Episode)
    (path : string) (segments : list Segment) (st : State) :
  trace st `prefix_of` trace (fst (storeProcessed w feedConfig e path segments st)).
Proof.
  unfold storeProcessed.
  destruct (planKeeps _ _); [|done]. destruct (TempDir w e); [|done].
  destruct (Transcode w _); simpl; try by apply prefix_app_r.
  destruct (OpenFails w _); simpl; [by apply prefix_app_r|].
  etrans; [|apply fsCreate_trace]. simpl. by apply prefix_app_r.
Qed.

Lemma storeAndMark_trace (w : World) (feedConfig : Feed) (e : Episode)
    (path : string) (rawSize : Z) (segments : list Segment) (st : State) :
  trace st `prefix_of` trace (fst (storeAndMark w feedConfig e path rawSize segments st)).
Proof.
  unfold storeAndMark.
  destruct (decide (length segments = 0%nat)).
  - pose proof (fsCreate_trace w st (EpisodeName w feedConfig e) rawSize) as Ht.
    destruct (fsCreate w st (EpisodeName w feedConfig e) rawSize) as [st1 [size|err]];
      simpl in *; [|done].
    by destruct (UpdateEpisode (db st1) (ID e) (set_downloaded size)).
  - pose proof (storeProcessed_trace w feedConfig e path segments st) as Ht.
    destruct (storeProcessed w feedConfig e path segments st) as [st1 [size|err]];
      simpl in *; [|done].
    by destruct (UpdateEpisode (db st1) (ID e) (set_downloaded size)).
Qed.

(** C9: a candidate whose blob is not in storage is put off, with the
    store and the blobs as they were, no download call and no error, when
    the mode is [require] and no segment was returned, or the mode is
    [requiredelay], no segment was returned and the delay has not elapsed;
    in every other case the downloader is called. *)
Theorem deferral_exactly_when (w : World) (feedConfig : Feed) (e : Episode) (st : State) :
  fsSize w st (EpisodeName w feedConfig e) = SizeNotExist ->
  (deferred w feedConfig e ->
     snd (processEpisode w feedConfig e st) = Continue
     /\ db (fst (processEpisode w feedConfig e st)) = db st
     /\ blobs (fst (processEpisode w feedConfig e st)) = blobs st
     /\ EvDownload (ID e) ∉ new_events st (fst (processEpisode w feedConfig e st)))
  /\ (~ deferred w feedConfig e ->
     EvDownload (ID e) ∈ new_events st (fst (processEpisode w feedConfig e st))).
Proof.
  intros Hs. split.
  - intros Hd. rewrite (processEpisode_deferred _ _ _ _ Hs Hd). simpl.
    repeat split. unfold new_events. simpl. rewrite drop_app_length.
    intros H%list_elem_of_singleton. discriminate H.
  - intros Hd. rewrite (processEpisode_attempted w feedConfig e st (conj Hs Hd)).
    assert (forall st1, trace st `prefix_of` trace st1 ->
              EvDownload (ID e) ∈ new_events st (log st1 (EvDownload (ID e)))) as Hlog.
    { intros st1 [t Ht]. unfold new_events. simpl. rewrite Ht, <- app_assoc.
      rewrite drop_app_length. apply elem_of_app. right. by apply list_elem_of_singleton. }
    assert (forall st1 st2, trace st1 `prefix_of` trace st2 ->
              EvDownload (ID e) ∈ new_events st st1 ->
              EvDownload (ID e) ∈ new_events st st2) as Hmono.
    { intros st1 st2 [t Ht] Hin. unfold new_events in *. rewrite Ht.
      destruct (decide (length (trace st) <= length (trace st1))%nat) as [Hle|Hgt].
      - rewrite drop_app_le by done. apply elem_of_app. by left.
      - rewrite drop_ge in Hin by lia. by apply elem_of_nil in Hin. }
    assert (EvDownload (ID e) ∈ new_events st (after_calls w feedConfig e st)) as H0.
    { unfold after_calls. apply Hlog.
      destruct (decide (SponsorblockMode feedConfig <> "off")); simpl;
        [by apply prefix_app_r | done]. }
    destruct (Download w e) as [path rawSize| |]; simpl; [| done |].
    + apply (Hmono (after_calls w feedConfig e st)); [|done].
      apply storeAndMark_trace.
    + destruct (UpdateEpisode (db st) (ID e) set_error); simpl; done.
Qed.

Lemma deferral_exactly_when_witness :
  fsSize Sample.world Sample.plain_state
    (EpisodeName Sample.world Sample.require_feed Sample.plain) = SizeNotExist
  /\ (deferred Sample.world Sample.require_feed Sample.plain ->
        snd (processEpisode Sample.world Sample.require_feed Sample.plain
               Sample.plain_state) = Continue
        /\ db (fst (processEpisode Sample.world Sample.require_feed Sample.plain
                      Sample.plain_state)) = db Sample.plain_state
        /\ blobs (fst (processEpisode Sample.world Sample.require_feed Sample.plain
                         Sample.plain_state)) = blobs Sample.plain_state
        /\ EvDownload (ID Sample.plain)
             ∉ new_events Sample.plain_state
                 (fst (processEpisode Sample.world Sample.require_feed Sample.plain
                         Sample.plain_state)))
  /\ (~ deferred Sample.world Sample.require_feed Sample.plain ->
        EvDownload (ID Sample.plain)
          ∈ new_events Sample.plain_state
              (fst (processEpisode Sample.world Sample.require_feed Sample.plain
                      Sample.plain_state))).
Proof.
  assert (fsSize Sample.world Sample.plain_state
            (EpisodeName Sample.world Sample.require_feed Sample.plain) = SizeNotExist)
    as Hs by (vm_compute; reflexivity).
  split; [exact Hs|].
  exact (deferral_exactly_when Sample.world Sample.require_feed Sample.plain
           Sample.plain_state Hs).
Defined.

(** In mode [require] with no segment the episode stays [New]; in mode
    [off] it is downloaded. *)
Example require_without_segments_stays_new :
  Status <$> db (fst (downloadEpisodes Sample.world Sample.require_feed Sample.plain_state))
               !! "plain" = Some EpisodeNew
  /\ snd (downloadEpisodes Sample.world Sample.require_feed Sample.plain_state) = None
  /\ db (fst (downloadEpisodes Sample.world Sample.off_feed Sample.plain_state))
       !! "plain" = Some (set_downloaded 1000 Sample.plain).
Proof. vm_compute. repeat split. Qed.

(** C10: a candidate whose blob is already in storage is marked
    [Downloaded] with the blob's size, whatever the sponsor-segment mode
    and whatever the lookup would answer: no lookup and no download are
    made, and the gate of modes [require] and [requiredelay] is not
    consulted. *)
Theorem existing_blob_marks_downloaded (w : World) (feedConfig : Feed) (e x : Episode)
    (st : State) (size : Z) :
  StatFails w (EpisodeName w feedConfig e) = false ->
  blobs st !! EpisodeName w feedConfig e = Some size ->
  db st !! ID e = Some x ->
  processEpisode w feedConfig e st =
    (with_db st (<[ID e := set_downloaded size x]> (db st)), Continue)
  /\ (exists x', db (fst (processEpisode w feedConfig e st)) !! ID e = Some x'
        /\ Status x' = EpisodeDownloaded /\ Size x' = size)
  /\ new_events st (fst (processEpisode w feedConfig e st)) = []
  /\ (deferred w feedConfig e ->
      Status <$> db (fst (processEpisode w feedConfig e st)) !! ID e
        = Some EpisodeDownloaded).
Proof.
  intros Hf Hb Hx.
  assert (processEpisode w feedConfig e st =
            (with_db st (<[ID e := set_downloaded size x]> (db st)), Continue)) as Heq.
  { unfold processEpisode, fsSize. rewrite Hf, Hb.
    by rewrite (UpdateEpisode_Some _ _ _ _ Hx). }
  rewrite Heq. simpl. split; [done|]. split; [|split].
  - exists (set_downloaded size x). by rewrite lookup_insert_eq.
  - unfold new_events. simpl. by rewrite drop_all.
  - intros _. by rewrite lookup_insert_eq.
Qed.

Lemma existing_blob_marks_downloaded_witness :
  StatFails Sample.world (EpisodeName Sample.world Sample.require_feed Sample.plain) = false
  /\ blobs Sample.stored_state !! EpisodeName Sample.world Sample.require_feed Sample.plain
       = Some 4242
  /\ db Sample.stored_state !! ID Sample.plain = Some Sample.plain
  /\ deferred Sample.world Sample.require_feed Sample.plain
  /\ processEpisode Sample.world Sample.require_feed Sample.plain Sample.stored_state =
       (with_db Sample.stored_state
          (<[ID Sample.plain := set_downloaded 4242 Sample.plain]> (db Sample.stored_state)),
        Continue)
  /\ (exists x', db (fst (processEpisode Sample.world Sample.require_feed Sample.plain
                            Sample.stored_state)) !! ID Sample.plain = Some x'
        /\ Status x' = EpisodeDownloaded /\ Size x' = 4242)
  /\ new_events Sample.stored_state
       (fst (processEpisode Sample.world Sample.require_feed Sample.plain
               Sample.stored_state)) = []
  /\ (deferred Sample.world Sample.require_feed Sample.plain ->
      Status <$> db (fst (processEpisode Sample.world Sample.require_feed Sample.plain
                            Sample.stored_state)) !! ID Sample.plain
        = Some EpisodeDownloaded).
Proof.
  assert (StatFails Sample.world
            (EpisodeName Sample.world Sample.require_feed Sample.plain) = false)
    as Hf by reflexivity.
  assert (blobs Sample.stored_state
            !! EpisodeName Sample.world Sample.require_feed Sample.plain = Some 4242)
    as Hb by (vm_compute; reflexivity).
  assert (db Sample.stored_state !! ID Sample.plain = Some Sample.plain)
    as Hx by (vm_compute; reflexivity).
  split; [exact Hf|]. split; [exact Hb|]. split; [exact Hx|].
  split; [left; split; reflexivity|].
  exact (existing_blob_marks_downloaded Sample.world Sample.require_feed Sample.plain
           Sample.plain Sample.stored_state 4242 Hf Hb Hx).
Defined.

Lemma updateFeed_idempotent_witness :
  keyed Sample.mixed_store
  /\ exists db1 db2,
       updateFeed (Ok Sample.listing) Sample.mixed_store = Ok db1
       /\ updateFeed (Ok Sample.listing) db1 = Ok db2
       /\ db2 = db1
       /\ survives Sample.mixed_store db1 /\ survives db1 db2.
Proof.
  assert (keyed Sample.mixed_store) as Hk by apply keyed_store_of.
  split; [exact Hk|].
  exact (updateFeed_idempotent Sample.listing Sample.mixed_store Hk).
Defined.

(** ** Retention cleaner *)

Lemma set_cleaned_idemp (e : Episode) : set_cleaned (set_cleaned e) = set_cleaned e.
Proof. done. Qed.

(** The loop of [cleanup] in closed form. *)
Lemma cleanStep_fold (w : World) (feedConfig : Feed) (l : list Episode) :
  forall (st : State) (errs : list error),
    (forall e, e ∈ l -> is_Some (db st !! ID e)) ->
    exists st',
      foldl (cleanStep w feedConfig) (st, errs) l =
        (st', errs ++ ((fun e => ErrDelete (ID e))
                         <$> filter (fun e => ~ deletable w feedConfig e) l))
      /\ (forall k, db st' !! k =
            if decide (k ∈ ID <$> filter (deletable w feedConfig) l)
            then set_cleaned <$> db st !! k else db st !! k)
      /\ (forall n, blobs st' !! n =
            if decide (n ∈ EpisodeName w feedConfig <$> filter (deletable w feedConfig) l)
            then None else blobs st !! n)
      /\ trace st' = trace st ++ ((fun e => EvDelete (EpisodeName w feedConfig e))
                                    <$> filter (deletable w feedConfig) l).
Proof.
  induction l as [|e l IH]; intros st errs Hin; cbn [foldl].
  - exists st. rewrite !filter_nil. simpl. rewrite !app_nil_r. repeat split.
  - assert (forall e', e' ∈ l -> is_Some (db st !! ID e')) as Hin'.
    { intros e' He'. apply Hin. by apply elem_of_cons; right. }
    destruct (Hin e) as [x Hx]; [by apply elem_of_cons; left|].
    unfold cleanStep at 2, fsDelete.
    destruct (DeleteFails w (EpisodeName w feedConfig e)) eqn:Hdel.
    + destruct (IH st (errs ++ [ErrDelete (ID e)]) Hin') as [st' [Hf [Hd [Hb Ht]]]].
      exists st'. rewrite Hf.
      rewrite (filter_cons_True (λ e0, ¬ deletable w feedConfig e0))
        by (unfold deletable; congruence).
      rewrite (filter_cons_False (deletable w feedConfig))
        by (unfold deletable; congruence).
      simpl. rewrite <- app_assoc. done.
    + simpl. rewrite (UpdateEpisode_Some _ _ _ _ Hx).
      set (st1 := with_db _ _).
      destruct (IH st1 errs) as [st' [Hf [Hd [Hb Ht]]]].
      { intros e' He'. simpl. apply lookup_insert_is_Some'. right. by apply Hin'. }
      exists st'. rewrite Hf.
      rewrite (filter_cons_False (λ e0, ¬ deletable w feedConfig e0))
        by (unfold deletable; intros H; by apply H).
      rewrite (filter_cons_True (deletable w feedConfig)) by done.
      split; [done|]. split; [|split].
      * intros k. rewrite Hd. simpl.
        destruct (decide (k = ID e)) as [->|Hne].
        -- rewrite lookup_insert_eq, Hx. simpl.
           rewrite (decide_True (P := ID e ∈ ID e :: _)) by (apply elem_of_cons; by left).
           by destruct (decide _).
        -- rewrite lookup_insert_ne by done.
           destruct (decide (k ∈ ID <$> filter (deletable w feedConfig) l)) as [H|H].
           ++ rewrite decide_True; [done|]. apply elem_of_cons. by right.
           ++ rewrite decide_False; [done|]. intros [?|?]%elem_of_cons; done.
      * intros n. rewrite Hb. simpl.
        destruct (decide (n = EpisodeName w feedConfig e)) as [->|Hne].
        -- rewrite lookup_delete_eq.
           rewrite (decide_True (P := _ ∈ _ :: _)) by (apply elem_of_cons; by left).
           by destruct (decide _).
        -- rewrite lookup_delete_ne by done.
           destruct (decide (n ∈ EpisodeName w feedConfig
                                 <$> filter (deletable w feedConfig) l)) as [H|H].
           ++ rewrite decide_True; [done|]. apply elem_of_cons. by right.
           ++ rewrite decide_False; [done|]. intros [?|?]%elem_of_cons; done.
      * rewrite Ht. simpl. by rewrite <- app_assoc.
Qed.

Lemma WalkEpisodes_IDs (db : Store) :
  keyed db -> ID <$> WalkEpisodes db = (map_to_list db).*1.
Proof.
  intros Hk. unfold WalkEpisodes. rewrite <- list_fmap_compose.
  apply list_fmap_ext. intros i [k e] Hin%list_elem_of_lookup_2. simpl.
  apply elem_of_map_to_list in Hin. by apply Hk in Hin.
Qed.

Lemma NoDup_fmap_filter {A B} (f : A -> B) (P : A -> Prop) `{!forall x, Decision (P x)}
    (l : list A) :
  NoDup (f <$> l) -> NoDup (f <$> filter P l).
Proof.
  induction l as [|x l IH]; [done|]. simpl. intros [Hx Hl]%NoDup_cons.
  destruct (decide (P x)).
  - rewrite filter_cons_True by done. simpl. apply NoDup_cons. split; [|by apply IH].
    intros [y [Hy Hin]]%list_elem_of_fmap. apply Hx.
    apply list_elem_of_fmap. exists y. split; [done|].
    by apply list_elem_of_filter in Hin as [_ ?].
  - rewrite filter_cons_False by done. by apply IH.
Qed.

Lemma elem_of_downloaded_list (db : Store) (e : Episode) :
  keyed db ->
  e ∈ downloaded_list db <-> db !! ID e = Some e /\ Status e = EpisodeDownloaded.
Proof.
  intros Hk. unfold downloaded_list. rewrite list_elem_of_filter, elem_of_WalkEpisodes.
  split.
  - intros [Hs [k He]]. split; [|done]. by rewrite (Hk _ _ He).
  - intros [He Hs]. split; [done|]. by exists (ID e).
Qed.

Lemma NoDup_downloaded_IDs (db : Store) : keyed db -> NoDup (ID <$> downloaded_list db).
Proof.
  intros Hk. unfold downloaded_list. apply NoDup_fmap_filter.
  rewrite WalkEpisodes_IDs by done. apply NoDup_fst_map_to_list.
Qed.


#[local] Instance in_order_after_total : Total (in_order after).
Proof.
  intros a b. unfold in_order, after.
  destruct (PubDate a <? PubDate b) eqn:H; [right | by left].
  apply Z.ltb_lt in H. apply Z.ltb_ge. lia.
Qed.

#[local] Instance in_order_after_trans : Transitive (in_order after).
Proof.
  intros a b c. unfold in_order, after. rewrite !Z.ltb_ge. lia.
Qed.

Lemma sorts_sample : sorts Sample.world.
Proof.
  intros l. simpl. split.
  - apply merge_sort_Permutation.
  - apply (StronglySorted_merge_sort (in_order after)).
Qed.

(** Ten [Downloaded] episodes and a keep-last count of 4: the four newest
    stay [Downloaded]; of the other six, five become [Cleaned] with empty
    title and description and lose their blob, and the one whose blob
    cannot be deleted stays and is reported; the [New] episode is not
    touched. With a count of 10 nothing happens. *)
Example cleanup_ten_keep_four :
  let r := cleanup Sample.world Sample.keep4_feed Sample.shelf in
  (forall k, k ∈ ["e6"; "e2"; "e8"; "e4"] -> db (fst r) !! k = db Sample.shelf !! k)
  /\ (forall k, k ∈ ["e7"; "e0"; "e3"; "e5"; "e1"] ->
        db (fst r) !! k = set_cleaned <$> db Sample.shelf !! k
        /\ blobs (fst r) !! (k +:+ ".mp4") = None)
  /\ db (fst r) !! "locked" = db Sample.shelf !! "locked"
  /\ db (fst r) !! "n" = db Sample.shelf !! "n"
  /\ snd r = [ErrDelete "locked"]
  /\ cleanup Sample.world Sample.keep10_feed Sample.shelf = (Sample.shelf, []).
Proof.
  split.
  { intros k Hk. repeat (apply elem_of_cons in Hk as [->|Hk]; [vm_compute; reflexivity|]).
    by apply elem_of_nil in Hk. }
  split.
  { intros k Hk.
    repeat (apply elem_of_cons in Hk as [->|Hk]; [vm_compute; split; reflexivity|]).
    by apply elem_of_nil in Hk. }
  vm_compute. repeat split.
Qed.


(** ** Segment planner *)

Section PlannerFacts.

Local Open Scope Q_scope.

Lemma kept_iff_keep (c : SponsorBlockCategories) (s : Segment) :
  kept c s = true <-> policy_of c (Category s) = Some "keep".
Proof.
  unfold kept, policy_of.
  repeat match goal with
         | |- context [decide (Category s = ?x /\ ?p)] =>
             destruct (decide (Category s = x /\ p)) as [[?H ?H]|?H]
         end;
  repeat match goal with
         | |- context [decide (Category s = ?x)] =>
             destruct (decide (Category s = x)) as [?H|?H]
         end;
  split; intros Hx; try done; try congruence;
  try (injection Hx as Hx; tauto).
Qed.

Lemma cuts_cons (c : SponsorBlockCategories) (s : Segment) (l : list Segment) :
  cuts c (s :: l) =
  match (if decide (policy_of c (Category s) = Some "cut") then bounds s else None) with
  | Some x => x :: cuts c l
  | None => cuts c l
  end.
Proof. reflexivity. Qed.

(** The loop of the planner against the specification's wording. *)
Lemma planLoop_spec (c : SponsorBlockCategories) (segments : list Segment) :
  well_formed c segments ->
  forall (nextStart : Q) (keeps : list (Q * Q)),
  exists ks cursor,
    planLoop c segments nextStart keeps = Some (keeps ++ ks, cursor)
    /\ ks ++ [(cursor, -1)] = keeps_of (cuts c segments) nextStart.
Proof.
  induction 1 as [|s segments [Hpol [[a b] Hb]] Hwf IH]; intros nextStart keeps.
  - exists [], nextStart. simpl. by rewrite app_nil_r.
  - cbn [planLoop]. rewrite cuts_cons.
    destruct Hpol as [Hcut|Hkeep].
    + assert (kept c s = false) as ->.
      { destruct (kept c s) eqn:Hk; [|done].
        apply kept_iff_keep in Hk. congruence. }
      rewrite decide_True by done. rewrite Hb.
      unfold bounds in Hb. destruct (SegmentBounds s) as [|s0 [|s1 tl]]; try done.
      injection Hb as -> ->. simpl.
      destruct (IH b (keeps ++ [(nextStart, a)])) as [ks [cursor [Hl Hs]]].
      exists ((nextStart, a) :: ks), cursor.
      rewrite Hl, <- app_assoc. simpl. by rewrite Hs.
    + rewrite (proj2 (kept_iff_keep c s) Hkeep).
      rewrite decide_False by congruence.
      apply IH.
Qed.

Lemma keeps_of_start (cut : list (Q * Q)) :
  forall lo k, ascending lo cut -> k ∈ keeps_of cut lo -> lo <= fst k.
Proof.
  induction cut as [|[a b] cut IH]; intros lo k Hasc Hin; simpl in *.
  - apply list_elem_of_singleton in Hin as ->. simpl. lra.
  - destruct Hasc as [H1 [H2 Hasc]].
    apply elem_of_cons in Hin as [->|Hin]; [simpl; lra|].
    specialize (IH _ _ Hasc Hin). lra.
Qed.

Lemma cuts_start (cut : list (Q * Q)) :
  forall lo x, ascending lo cut -> x ∈ cut -> lo <= fst x.
Proof.
  induction cut as [|[a b] cut IH]; intros lo x Hasc Hin; simpl in *.
  - by apply elem_of_nil in Hin.
  - destruct Hasc as [H1 [H2 Hasc]].
    apply elem_of_cons in Hin as [->|Hin]; [simpl; lra|].
    specialize (IH _ _ Hasc Hin). lra.
Qed.

Lemma covers_start (duration : Q) (k : Q * Q) (t : Q) :
  covers duration k t -> fst k <= t.
Proof. by intros [? _]. Qed.

(** The keep intervals are the complement of the cut segments in
    [[lo, duration)], and no two of them overlap. *)
Lemma keeps_of_partition (cut : list (Q * Q)) :
  forall lo duration t,
    0 <= lo -> ascending lo cut -> lo <= t -> t < duration ->
    (Exists (fun k => covers duration k t) (keeps_of cut lo)
     <-> ~ Exists (fun x => in_cut x t) cut)
    /\ (forall i j ki kj,
          keeps_of cut lo !! i = Some ki -> keeps_of cut lo !! j = Some kj ->
          covers duration ki t -> covers duration kj t -> i = j).
Proof.
  induction cut as [|[a b] cut IH]; intros lo duration t H0 Hasc Hlo Hd.
  - simpl. split.
    + split; [intros _ H; by apply Exists_nil in H|]. intros _.
      apply Exists_cons. left. unfold covers. simpl. split; lra.
    + intros [|i] [|j] ki kj; simpl; intros; simplify_eq; try done.
  - destruct Hasc as [H1 [H2 Hasc]]. cbn [keeps_of].
    assert (Hlater : forall k, k ∈ keeps_of cut b -> covers duration k t -> b <= t).
    { intros k Hk Hc. pose proof (keeps_of_start _ _ _ Hasc Hk).
      pose proof (covers_start _ _ _ Hc). lra. }
    assert (Hfirst : covers duration (lo, a) t <-> t < a).
    { unfold covers. simpl.
      rewrite (proj2 (Qle_bool_iff 0 a)) by lra. split; [tauto | intros; split; lra]. }
    destruct (Qlt_le_dec t b) as [Htb|Htb].
    + (* before the end of the first cut: no later interval reaches t *)
      assert (Hnone : ~ Exists (fun k => covers duration k t) (keeps_of cut b)).
      { intros [k [Hk Hc]]%Exists_exists. specialize (Hlater _ Hk Hc). lra. }
      assert (Hnocut : ~ Exists (fun x => in_cut x t) cut).
      { intros [x [Hx [Hc1 Hc2]]]%Exists_exists.
        pose proof (cuts_start _ _ _ Hasc Hx). lra. }
      split.
      * rewrite !Exists_cons, Hfirst.
        split.
        -- intros [Hta|Hex]; [|tauto].
           intros [[Hc1 Hc2]|Hex]; [simpl in *; lra | tauto].
        -- intros Hn. left. destruct (Qlt_le_dec t a) as [|Hat]; [done|].
           exfalso. apply Hn. left. split; simpl; lra.
      * intros [|i] [|j] ki kj Hi Hj Hci Hcj; simpl in *; try done; exfalso.
        -- apply list_elem_of_lookup_2 in Hj. specialize (Hlater _ Hj Hcj). lra.
        -- apply list_elem_of_lookup_2 in Hi. specialize (Hlater _ Hi Hci). lra.
        -- apply list_elem_of_lookup_2 in Hi. specialize (Hlater _ Hi Hci). lra.
    + (* from the end of the first cut on: the rest of the list decides *)
      destruct (IH b duration t) as [IH1 IH2]; [lra | done | done | done |].
      split.
      * rewrite !Exists_cons, Hfirst, IH1.
        split.
        -- intros [Hta|Hex]; [lra|].
           intros [[Hc1 Hc2]|Hex']; [simpl in *; lra | tauto].
        -- intros Hn. right. tauto.
      * intros [|i] [|j] ki kj Hi Hj Hci Hcj; simpl in *; simplify_eq; try done.
        -- apply Hfirst in Hci. lra.
        -- apply Hfirst in Hcj. lra.
        -- f_equal. by apply (IH2 i j ki kj).
Qed.

(** C5: on segments whose categories have policy [cut] or [keep], the
    planner returns the interval from the cursor to the start of each [cut]
    segment, the cursor moving to that segment's end, and the tail
    [(cursor, -1)] last, a [keep] segment adding nothing; when the cut
    segments are disjoint and ascending, every instant of the media is in
    exactly one keep interval or in a cut segment, never in both. *)
Theorem planKeeps_complement (c : SponsorBlockCategories) (segments : list Segment) :
  well_formed c segments ->
  ascending 0 (cuts c segments) ->
  planKeeps c segments = Some (plan_spec c segments)
  /\ forall duration t, 0 <= t -> t < duration ->
       (Exists (fun k => covers duration k t) (plan_spec c segments)
        <-> ~ Exists (fun x => in_cut x t) (cuts c segments))
       /\ (forall i j ki kj,
             plan_spec c segments !! i = Some ki -> plan_spec c segments !! j = Some kj ->
             covers duration ki t -> covers duration kj t -> i = j).
Proof.
  intros Hwf Hasc. split.
  - unfold planKeeps, plan_spec.
    destruct (planLoop_spec c segments Hwf 0 []) as [ks [cursor [-> <-]]]. done.
  - intros duration t Ht Hd. unfold plan_spec.
    apply keeps_of_partition; [lra | done | done | done].
Qed.

End PlannerFacts.

Section PlannerWording.

Local Open Scope Q_scope.

(** Proper, disjoint cut segments with ascending starts form a chain: the
    claim's hypothesis gives the one [planKeeps_complement] asks for. *)
Lemma ascending_of_disjoint (cut : list (Q * Q)) :
  forall lo,
    proper cut -> ascending_starts cut -> disjoint cut ->
    (forall x, cut !! 0%nat = Some x -> lo <= fst x) ->
    ascending lo cut.
Proof.
  induction cut as [|[a b] cut IH]; intros lo Hp Ha Hd Hlo; [done|].
  apply Forall_cons in Hp as [[Hp1 Hp2] Hp]. simpl in *.
  split; [by apply (Hlo (a, b))|]. split; [lra|].
  apply IH; [done | | |].
  - intros i j x y Hij Hi Hj. apply (Ha (S i) (S j) x y); [lia | done | done].
  - intros i j x y t Hij Hi Hj. apply (Hd (S i) (S j) x y t); [lia | done | done].
  - intros [a' b'] Hx. simpl.
    destruct (Qlt_le_dec a' b) as [Hlt|]; [|done]. exfalso.
    assert (a <= a') as Haa by (apply (Ha 0%nat 1%nat (a, b) (a', b')); [lia|done|done]).
    assert (a' < b') as Hab.
    { destruct cut as [|x cut]; [done|]. injection Hx as ->.
      by apply Forall_cons in Hp as [[_ ?] _]. }
    apply (Hd 0%nat 1%nat (a, b) (a', b') a'); [lia | done | done |].
    split; split; simpl; lra.
Qed.

End PlannerWording.

Lemma planKeeps_complement_witness :
  well_formed Sample.categories Sample.segments
  /\ ascending 0 (cuts Sample.categories Sample.segments)
  /\ planKeeps Sample.categories Sample.segments
       = Some (plan_spec Sample.categories Sample.segments)
  /\ forall duration t, (0 <= t)%Q -> (t < duration)%Q ->
       (Exists (fun k => covers duration k t) (plan_spec Sample.categories Sample.segments)
        <-> ~ Exists (fun x => in_cut x t) (cuts Sample.categories Sample.segments))
       /\ (forall i j ki kj,
             plan_spec Sample.categories Sample.segments !! i = Some ki ->
             plan_spec Sample.categories Sample.segments !! j = Some kj ->
             covers duration ki t -> covers duration kj t -> i = j).
Proof.
  assert (well_formed Sample.categories Sample.segments) as Hwf.
  { repeat constructor; try (by left); try (by right); by eexists. }
  assert (ascending 0 (cuts Sample.categories Sample.segments)) as Hasc.
  { vm_compute. repeat split; intros H; discriminate H. }
  split; [exact Hwf|]. split; [exact Hasc|].
  exact (planKeeps_complement Sample.categories Sample.segments Hwf Hasc).
Defined.

(** The sample segments: the intro is kept, the two sponsor segments are
    cut. *)
Example planKeeps_sample :
  planKeeps Sample.categories Sample.segments
  = Some [(0, 10); (20, 50); (60.5, -1)]%Q.
Proof. vm_compute. reflexivity. Qed.

(** A segment without its two bounds makes the planner panic. *)
Example planKeeps_short_segment :
  planKeeps Sample.categories
    [{| SegmentBounds := [10%Q]; UUID := "u"; Category := "sponsor" |}] = None.
Proof. reflexivity. Qed.

(** ** Filter-graph builder *)

Lemma app_String (a : ascii) (s t : string) : String a s +:+ t = String a (s +:+ t).
Proof. reflexivity. Qed.

Lemma app_empty_l (s : string) : "" +:+ s = s.
Proof. reflexivity. Qed.

Lemma app_empty_r (s : string) : s +:+ "" = s.
Proof. induction s as [|a s IH]; [done|]. by rewrite app_String, IH. Qed.

Lemma app_assoc_s (s t u : string) : (s +:+ t) +:+ u = s +:+ (t +:+ u).
Proof. induction s as [|a s IH]; [done|]. by rewrite !app_String, IH. Qed.

Lemma has_semicolon_app (s t : string) :
  has_semicolon (s +:+ t) = has_semicolon s || has_semicolon t.
Proof.
  induction s as [|a s IH]; [done|]. rewrite app_String. simpl.
  by destruct (decide (a = ";"%char)).
Qed.

Lemma has_semicolon_uint (d : Decimal.uint) :
  has_semicolon (NilEmpty.string_of_uint d) = false.
Proof. induction d; simpl; done. Qed.

Lemma has_semicolon_fmt_d (n : Z) : has_semicolon (fmt_d n) = false.
Proof.
  unfold fmt_d, NilZero.string_of_int, NilZero.string_of_uint.
  destruct (Z.to_int n) as [d|d]; destruct d; simpl; try done;
    apply has_semicolon_uint.
Qed.

Lemma digit_not_semicolon (n : Z) : digit n <> ";"%char.
Proof.
  unfold digit. pose proof (Z.mod_pos_bound n 10 eq_refl) as Hb.
  assert (Z.to_nat (n mod 10) < 10)%nat as Hk by lia.
  destruct (Z.to_nat (n mod 10)) as [|[|[|[|[|[|[|[|[|[|k]]]]]]]]]];
    try discriminate. lia.
Qed.

Lemma has_semicolon_frac6 (n : Z) : has_semicolon (frac6 n) = false.
Proof.
  unfold frac6. cbn [has_semicolon].
  repeat (rewrite decide_False by apply digit_not_semicolon). done.
Qed.

Lemma has_semicolon_fmt_f (x : Q) : has_semicolon (fmt_f x) = false.
Proof.
  unfold fmt_f. rewrite !has_semicolon_app, has_semicolon_fmt_d, has_semicolon_frac6.
  by destruct (Qnum x <? 0).
Qed.

Lemma has_semicolon_trim_bounds (seg : Q * Q) : has_semicolon (trim_bounds seg) = false.
Proof.
  unfold trim_bounds. rewrite !has_semicolon_app, has_semicolon_fmt_f.
  destruct (Qle_bool 0 (snd seg)); [|done].
  by rewrite has_semicolon_app, has_semicolon_fmt_f.
Qed.

Lemma has_semicolon_audio_trim (idx : nat) (seg : Q * Q) :
  has_semicolon (audio_trim idx seg) = false.
Proof.
  unfold audio_trim.
  by rewrite !has_semicolon_app, has_semicolon_trim_bounds, has_semicolon_fmt_d.
Qed.

Lemma has_semicolon_video_trim (idx : nat) (seg : Q * Q) :
  has_semicolon (video_trim idx seg) = false.
Proof.
  unfold video_trim.
  by rewrite !has_semicolon_app, has_semicolon_trim_bounds, has_semicolon_fmt_d.
Qed.

Lemma has_semicolon_labels (format : Format) (keeps : list (Q * Q)) :
  forall idx, has_semicolon (concat_strings (labels format idx keeps)) = false.
Proof.
  induction keeps as [|seg keeps IH]; intros idx; [done|].
  cbn [labels]. destruct (decide (format = FormatAudio)); simpl;
    rewrite !has_semicolon_app, ?has_semicolon_fmt_d, IH; done.
Qed.

Lemma has_semicolon_concat_stage (format : Format) (keeps : list (Q * Q)) :
  has_semicolon (concat_stage format keeps) = false.
Proof.
  unfold concat_stage.
  rewrite !has_semicolon_app, has_semicolon_labels, has_semicolon_fmt_d.
  by destruct (decide (format = FormatAudio)).
Qed.

Lemma split_stages_whole (s : string) : has_semicolon s = false -> split_stages s = [s].
Proof.
  induction s as [|a s IH]; [done|]. simpl.
  destruct (decide (a = ";"%char)); [done|]. intros H. by rewrite IH.
Qed.

Lemma split_stages_stage (s rest : string) :
  has_semicolon s = false ->
  split_stages (s +:+ String ";" rest) = s :: split_stages rest.
Proof.
  induction s as [|a s IH]; [done|]. rewrite app_String. simpl.
  destruct (decide (a = ";"%char)); [done|]. intros H. by rewrite IH.
Qed.

Lemma audioStage_closed (idx : nat) (seg : Q * Q) (filter : string) :
  audioStage idx seg filter = filter +:+ (audio_trim idx seg +:+ ";").
Proof.
  destruct seg as [start end_]. unfold audioStage, audio_trim, trim_bounds. simpl.
  destruct (Qle_bool 0 end_); rewrite !app_assoc_s; reflexivity.
Qed.

Lemma videoStage_closed (idx : nat) (seg : Q * Q) (filter : string) :
  videoStage idx seg filter = filter +:+ (video_trim idx seg +:+ ";").
Proof.
  destruct seg as [start end_]. unfold videoStage, video_trim, trim_bounds. simpl.
  destruct (Qle_bool 0 end_); rewrite !app_assoc_s; reflexivity.
Qed.

(** The loop of the builder in closed form. *)
Lemma filterLoop_closed (format : Format) (keeps : list (Q * Q)) :
  forall (idx : nat) (filter finalFilter : string),
    filterLoop format idx keeps filter finalFilter =
    (filter +:+ stages_text (trim_stages format idx keeps),
     finalFilter +:+ concat_strings (labels format idx keeps)).
Proof.
  induction keeps as [|seg keeps IH]; intros idx filter finalFilter.
  - simpl. unfold stages_text. simpl. by rewrite !app_empty_r.
  - cbn [filterLoop trim_stages labels]. rewrite audioStage_closed.
    destruct format; cbn [decide_rel decide Format_eq_dec not_dec].
    + simpl. rewrite IH. unfold stages_text. simpl. by rewrite !app_assoc_s.
    + simpl. rewrite videoStage_closed, IH. unfold stages_text. simpl.
      by rewrite !app_assoc_s.
Qed.

Lemma filterComplex_closed (format : Format) (keeps : list (Q * Q)) :
  filterComplex format keeps =
  stages_text (trim_stages format 0 keeps) +:+ concat_stage format keeps.
Proof.
  unfold filterComplex. rewrite filterLoop_closed. unfold concat_stage, videoStreams.
  rewrite !app_empty_l.
  destruct format; simpl; rewrite !app_assoc_s; reflexivity.
Qed.

Lemma split_stages_text (l : list string) (tail : string) :
  Forall (fun s => has_semicolon s = false) l ->
  split_stages (stages_text l +:+ tail) = l ++ split_stages tail.
Proof.
  induction 1 as [|s l Hs Hl IH]; [done|].
  unfold stages_text in *. rewrite fmap_cons. cbn [concat_strings].
  rewrite !app_assoc_s.
  change (";" +:+ ?x) with (String ";"%char x).
  rewrite split_stages_stage by done. by rewrite IH.
Qed.

Lemma trim_stages_no_semicolon (format : Format) (keeps : list (Q * Q)) :
  forall idx, Forall (fun s => has_semicolon s = false) (trim_stages format idx keeps).
Proof.
  induction keeps as [|seg keeps IH]; intros idx; [constructor|].
  cbn [trim_stages]. destruct (decide (format = FormatAudio)); simpl;
    repeat (constructor; [apply has_semicolon_audio_trim || apply has_semicolon_video_trim|]);
    apply IH.
Qed.

Lemma length_trim_stages (format : Format) (keeps : list (Q * Q)) :
  forall idx,
    length (trim_stages format idx keeps) =
    ((if decide (format = FormatAudio) then 1 else 2) * length keeps)%nat.
Proof.
  induction keeps as [|seg keeps IH]; intros idx; simpl; [lia|].
  rewrite length_app, IH. destruct (decide (format = FormatAudio)); simpl; lia.
Qed.

(** C6: the rendered filter graph is, stage by stage, the trim stages of
    the keep intervals in order (one audio stage [s{i}a] per interval, each
    followed by its video stage [s{i}v] unless the feed is audio-only) and
    then the single concatenation stage, which names every segment label in
    interval order and ends with [outa] (after [outv] when there is video);
    the end bound is left out for the tail's [-1]; the output file has the
    extension mp3 for an audio-only feed and mp4 otherwise. *)
Theorem filterComplex_stages (format : Format) (keeps : list (Q * Q))
    (join : string -> string -> string) (tmpDir inputPath : string) (episode : Episode) :
  split_stages (filterComplex format keeps) =
    trim_stages format 0 keeps ++ [concat_stage format keeps]
  /\ length (trim_stages format 0 keeps) =
       ((if decide (format = FormatAudio) then 1 else 2) * length keeps)%nat
  /\ (forall start, trim_bounds (start, (-1)%Q) = "start=" +:+ fmt_f start)
  /\ ffmpegArgs join tmpDir inputPath format episode keeps !! 5%nat =
       Some (filterComplex format keeps)
  /\ last (ffmpegArgs join tmpDir inputPath format episode keeps) =
       Some (join tmpDir ("processed-" +:+ ID episode +:+ "."
                          +:+ (if decide (format = FormatAudio) then "mp3" else "mp4"))).
Proof.
  split; [|split; [|split; [|split]]].
  - rewrite filterComplex_closed, split_stages_text by apply trim_stages_no_semicolon.
    by rewrite split_stages_whole by apply has_semicolon_concat_stage.
  - apply length_trim_stages.
  - intros start. unfold trim_bounds. simpl. by rewrite app_empty_r.
  - unfold ffmpegArgs. by destruct (decide (format <> FormatAudio)).
  - unfold ffmpegArgs, processedPath, ext.
    destruct (decide (format <> FormatAudio)); rewrite ?last_app; simpl; done.
Qed.

(** The filter graph of two keep intervals of a video feed. *)
Example filterComplex_sample :
  filterComplex FormatVideo [(0, 30); (45.5, -1)]%Q =
  "[0:a]atrim=start=0.000000:end=30.000000,asetpts=PTS-STARTPTS[s0a];[0:v]trim=start=0.000000:end=30.000000,setpts=PTS-STARTPTS[s0v];[0:a]atrim=start=45.500000,asetpts=PTS-STARTPTS[s1a];[0:v]trim=start=45.500000,setpts=PTS-STARTPTS[s1v];[s0v][s0a][s1v][s1a]concat=n=2:v=1:a=1[outv][outa]".
Proof. vm_compute. reflexivity. Qed.

(** The same intervals for an audio-only feed. *)
Example filterComplex_audio_sample :
  filterComplex FormatAudio [(0, 30); (45.5, -1)]%Q =
  "[0:a]atrim=start=0.000000:end=30.000000,asetpts=PTS-STARTPTS[s0a];[0:a]atrim=start=45.500000,asetpts=PTS-STARTPTS[s1a];[s0a][s1a]concat=n=2:v=0:a=1[outa]".
Proof. vm_compute. reflexivity. Qed.

(** * Further properties of the code *)

(** ** Download scheduler *)

Lemma UpdateEpisode_inv (db db' : Store) (id : string) (cb : Episode -> Episode) :
  UpdateEpisode db id cb = Ok db' ->
  exists x, db !! id = Some x /\ db' = <[id := cb x]> db.
Proof.
  unfold UpdateEpisode. destruct (db !! id) as [x|]; [|done].
  intros [= <-]. by exists x.
Qed.

(** What one pass of the loop does to the store, by the way it ends. *)
Lemma processEpisode_db (w : World) (feedConfig : Feed) (e : Episode) (st : State) :
  match snd (processEpisode w feedConfig e st) with
  | Continue =>
      db (fst (processEpisode w feedConfig e st)) = db st
      \/ exists x, db st !! ID e = Some x
           /\ (db (fst (processEpisode w feedConfig e st)) = <[ID e := set_error x]> (db st)
               \/ exists size, db (fst (processEpisode w feedConfig e st))
                               = <[ID e := set_downloaded size x]> (db st))
  | _ => db (fst (processEpisode w feedConfig e st)) = db st
  end.
Proof.
  assert (Hmark : forall path rawSize segments st1, db st1 = db st ->
    match snd (storeAndMark w feedConfig e path rawSize segments st1) with
    | Continue =>
        exists x, db st !! ID e = Some x
          /\ exists size, db (fst (storeAndMark w feedConfig e path rawSize segments st1))
                          = <[ID e := set_downloaded size x]> (db st)
    | _ => db (fst (storeAndMark w feedConfig e path rawSize segments st1)) = db st
    end).
  { intros path rawSize segments st1 H1. unfold storeAndMark.
    destruct (decide (length segments = 0%nat)).
    - pose proof (fsCreate_db w st1 (EpisodeName w feedConfig e) rawSize) as Hdb.
      destruct (fsCreate w st1 (EpisodeName w feedConfig e) rawSize) as [st2 [size|err]];
        simpl in *; [|congruence].
      destruct (UpdateEpisode (db st2) (ID e) (set_downloaded size)) as [db'|err] eqn:Hu;
        simpl; [|congruence].
      apply UpdateEpisode_inv in Hu as [x [Hx ->]]. rewrite Hdb, H1 in *.
      exists x. split; [done|]. by exists size.
    - pose proof (storeProcessed_db w feedConfig e path segments st1) as Hdb.
      destruct (storeProcessed w feedConfig e path segments st1) as [st2 [size|err]];
        simpl in *; [|congruence].
      destruct (UpdateEpisode (db st2) (ID e) (set_downloaded size)) as [db'|err] eqn:Hu;
        simpl; [|congruence].
      apply UpdateEpisode_inv in Hu as [x [Hx ->]]. rewrite Hdb, H1 in *.
      exists x. split; [done|]. by exists size. }
  unfold processEpisode.
  destruct (fsSize w st (EpisodeName w feedConfig e)) as [size| |]; simpl; [| |done].
  - destruct (UpdateEpisode (db st) (ID e) (set_downloaded size)) as [db'|err] eqn:Hu;
      simpl; [|done].
    apply UpdateEpisode_inv in Hu as [x [Hx ->]]. right. exists x. split; [done|].
    right. by exists size.
  - destruct (decide (SponsorblockMode feedConfig <> "off")) as [Hm|Hm].
    + repeat (destruct (decide _); [by left|]).
      destruct (Download w e) as [path rawSize| |]; [| done |].
      * pose proof (Hmark path rawSize (LookupSegments w e)
                      (log (log st (EvLookup (ID e))) (EvDownload (ID e))) eq_refl) as H.
        destruct (snd (storeAndMark _ _ _ _ _ _ _)); [|done..].
        destruct H as [x [Hx [size Hs]]]. right. exists x. split; [done|].
        right. by exists size.
      * simpl. destruct (UpdateEpisode (db st) (ID e) set_error) as [db'|err] eqn:Hu;
          simpl; [|done].
        apply UpdateEpisode_inv in Hu as [x [Hx ->]]. right. exists x. split; [done|].
        by left.
    + repeat (destruct (decide _); [by left|]).
      destruct (Download w e) as [path rawSize| |]; [| done |].
      * pose proof (Hmark path rawSize [] (log st (EvDownload (ID e))) eq_refl) as H.
        destruct (snd (storeAndMark _ _ _ _ _ _ _)); [|done..].
        destruct H as [x [Hx [size Hs]]]. right. exists x. split; [done|].
        right. by exists size.
      * simpl. destruct (UpdateEpisode (db st) (ID e) set_error) as [db'|err] eqn:Hu;
          simpl; [|done].
        apply UpdateEpisode_inv in Hu as [x [Hx ->]]. right. exists x. split; [done|].
        by left.
Qed.

Lemma rescheduled_refl (db : Store) : rescheduled db db.
Proof.
  intros k. destruct (db !! k) as [e|]; [|done].
  exists e. split; [done|]. split; [by repeat split | by left].
Qed.

Lemma rescheduled_trans (db1 db2 db3 : Store) :
  rescheduled db1 db2 -> rescheduled db2 db3 -> rescheduled db1 db3.
Proof.
  intros H12 H23 k. specialize (H12 k). specialize (H23 k).
  destruct (db1 !! k) as [e|].
  - destruct H12 as [e' [He' [Hm Hs]]]. rewrite He' in H23.
    destruct H23 as [e'' [He'' [Hm' Hs']]]. exists e''. split; [done|].
    split.
    + destruct Hm as (?&?&?&?&?), Hm' as (?&?&?&?&?). repeat split; congruence.
    + destruct Hs' as [->|Hs']; [done | by right].
  - by rewrite H12 in H23.
Qed.

Lemma rescheduled_insert (db : Store) (k : string) (x x' : Episode) :
  db !! k = Some x -> same_metadata x x' ->
  Status x' = EpisodeDownloaded \/ Status x' = EpisodeError ->
  rescheduled db (<[k := x']> db).
Proof.
  intros Hx Hm Hs k'. destruct (decide (k' = k)) as [->|Hne].
  - rewrite Hx, lookup_insert_eq. exists x'. split; [done|]. split; [done | by right].
  - rewrite lookup_insert_ne by done. apply rescheduled_refl.
Qed.

Lemma processEpisode_rescheduled (w : World) (feedConfig : Feed) (e : Episode) (st : State) :
  rescheduled (db st) (db (fst (processEpisode w feedConfig e st))).
Proof.
  pose proof (processEpisode_db w feedConfig e st) as H.
  destruct (snd (processEpisode w feedConfig e st)); try (rewrite H; apply rescheduled_refl).
  destruct H as [->|[x [Hx [->|[size ->]]]]]; [apply rescheduled_refl|..];
    (apply (rescheduled_insert _ _ x); [done | by repeat split | simpl; tauto]).
Qed.

Lemma processAll_rescheduled (w : World) (feedConfig : Feed) (l : list Episode) :
  forall st, rescheduled (db st) (db (fst (processAll w feedConfig l st))).
Proof.
  induction l as [|e l IH]; intros st; [apply rescheduled_refl|].
  cbn [processAll]. pose proof (processEpisode_rescheduled w feedConfig e st) as He.
  destruct (processEpisode w feedConfig e st) as [st' [| |err]]; simpl in *; try done.
  by apply (rescheduled_trans _ (db st')).
Qed.

(** The scheduler deletes and creates no record and rewrites no title,
    description, publish date or locator: a record is left as it was or
    becomes [Downloaded] or [Error]. *)
Theorem downloadEpisodes_rescheduled (w : World) (feedConfig : Feed) (st : State) :
  rescheduled (db st) (db (fst (downloadEpisodes w feedConfig st))).
Proof.
  unfold downloadEpisodes.
  destruct (selectCandidates w feedConfig (db st)) as [p dl].
  destruct (decide (0 < length dl)%nat); [|apply rescheduled_refl].
  apply processAll_rescheduled.
Qed.

(** A pass of the loop that does not end in [continue], on the rate-limit
    error or on a returned error, leaves every record as stored: the
    episode it stopped at is not marked. *)
Theorem processEpisode_stop_keeps_store (w : World) (feedConfig : Feed) (e : Episode)
    (st : State) :
  snd (processEpisode w feedConfig e st) <> Continue ->
  db (fst (processEpisode w feedConfig e st)) = db st.
Proof.
  intros Hf. pose proof (processEpisode_db w feedConfig e st) as H.
  by destruct (snd (processEpisode w feedConfig e st)).
Qed.

Lemma processEpisode_stop_keeps_store_witness :
  snd (processEpisode Sample.world Sample.require_feed Sample.cutbad
         (Sample.state_of [Sample.cutbad; Sample.plain])) <> Continue
  /\ db (fst (processEpisode Sample.world Sample.require_feed Sample.cutbad
                (Sample.state_of [Sample.cutbad; Sample.plain])))
     = db (Sample.state_of [Sample.cutbad; Sample.plain]).
Proof.
  assert (snd (processEpisode Sample.world Sample.require_feed Sample.cutbad
                 (Sample.state_of [Sample.cutbad; Sample.plain])) <> Continue) as Hf.
  { vm_compute. intros H. discriminate H. }
  split; [exact Hf|].
  exact (processEpisode_stop_keeps_store Sample.world Sample.require_feed Sample.cutbad
           (Sample.state_of [Sample.cutbad; Sample.plain]) Hf).
Defined.

Lemma selectStep_queue (w : World) (feedConfig : Feed) (l : list Episode) :
  forall (acc : Z * list Episode) (q : Episode),
    q ∈ snd (foldl (selectStep w feedConfig) acc l) ->
    q ∈ snd acc \/ (q ∈ l /\ eligible w feedConfig q).
Proof.
  induction l as [|e l IH]; intros acc q Hq; cbn [foldl] in Hq; [by left|].
  apply IH in Hq as [Hq|[Hq He]]; [|right; split; [by apply elem_of_cons; right | done]].
  destruct (decide (eligible w feedConfig e)) as [He|He].
  - destruct acc as [p dl]. unfold selectStep in Hq.
    destruct (decide (Status e <> EpisodeNew /\ Status e <> EpisodeError)); [by left|].
    destruct (negb _); [by left|].
    destruct (wrap_int (p - 1) <=? 0); simpl in Hq; [by left|].
    apply elem_of_app in Hq as [Hq|Hq]; [by left|].
    apply list_elem_of_singleton in Hq as ->. right. split; [by apply elem_of_cons; left | done].
  - rewrite selectStep_skip in Hq by done. by left.
Qed.

Lemma finished_not_queued (w : World) (feedConfig : Feed) (db : Store)
    (k : string) (e : Episode) :
  keyed db -> db !! k = Some e ->
  Status e = EpisodeDownloaded \/ Status e = EpisodeCleaned ->
  k ∉ ID <$> snd (selectCandidates w feedConfig db).
Proof.
  intros Hk He Hs [q [-> Hq]]%list_elem_of_fmap.
  apply selectStep_queue in Hq as [Hq|[Hq [Hel _]]]; [by apply elem_of_nil in Hq|].
  apply elem_of_WalkEpisodes in Hq as [k' Hq].
  pose proof (Hk _ _ Hq) as Hid. simpl in Hid. subst k'.
  assert (q = e) as -> by congruence.
  destruct Hel as [Hn|Hn], Hs as [Hs|Hs]; congruence.
Qed.

(** The scheduler leaves every [Downloaded] and every [Cleaned] episode
    exactly as stored, whatever the budget, the filters and the answers of
    the collaborators. *)
Theorem downloadEpisodes_keeps_finished (w : World) (feedConfig : Feed) (st : State)
    (k : string) (e : Episode) :
  keyed (db st) ->
  db st !! k = Some e ->
  Status e = EpisodeDownloaded \/ Status e = EpisodeCleaned ->
  db (fst (downloadEpisodes w feedConfig st)) !! k = Some e.
Proof.
  intros Hk He Hs. rewrite downloadEpisodes_other; [done|].
  by apply (finished_not_queued w feedConfig (db st) k e).
Qed.

Lemma downloadEpisodes_keeps_finished_witness :
  keyed (db Sample.shelf)
  /\ db Sample.shelf !! "e3" = Some (Sample.episode "e3" "three" 30 EpisodeDownloaded)
  /\ (Status (Sample.episode "e3" "three" 30 EpisodeDownloaded) = EpisodeDownloaded
      \/ Status (Sample.episode "e3" "three" 30 EpisodeDownloaded) = EpisodeCleaned)
  /\ db (fst (downloadEpisodes Sample.world Sample.off_feed Sample.shelf)) !! "e3"
     = Some (Sample.episode "e3" "three" 30 EpisodeDownloaded).
Proof.
  assert (keyed (db Sample.shelf)) as Hk by apply keyed_store_of.
  assert (db Sample.shelf !! "e3" = Some (Sample.episode "e3" "three" 30 EpisodeDownloaded))
    as He by (vm_compute; reflexivity).
  split; [exact Hk|]. split; [exact He|]. split; [by left|].
  exact (downloadEpisodes_keeps_finished Sample.world Sample.off_feed Sample.shelf "e3"
           _ Hk He (or_introl eq_refl)).
Defined.

(** With a page size of 1 or less nothing is queued: the run changes
    nothing and returns no error, however many episodes are eligible. *)
Theorem downloadEpisodes_page_size_one (w : World) (feedConfig : Feed) (st : State) :
  min_int + Z.of_nat (length (filter (eligible w feedConfig) (WalkEpisodes (db st))))
    <= PageSize feedConfig ->
  PageSize feedConfig <= 1 ->
  downloadEpisodes w feedConfig st = (st, None).
Proof.
  intros Hlo Hhi. unfold downloadEpisodes.
  rewrite selectCandidates_take by (unfold max_int; lia).
  replace (Z.to_nat (PageSize feedConfig - 1)) with 0%nat by lia.
  by rewrite take_0.
Qed.

Lemma downloadEpisodes_page_size_one_witness :
  min_int + Z.of_nat (length (filter (eligible Sample.world Sample.one_feed)
                                (WalkEpisodes (db Sample.five_state))))
    <= PageSize Sample.one_feed
  /\ PageSize Sample.one_feed <= 1
  /\ downloadEpisodes Sample.world Sample.one_feed Sample.five_state
     = (Sample.five_state, None).
Proof.
  assert (min_int + Z.of_nat (length (filter (eligible Sample.world Sample.one_feed)
                                        (WalkEpisodes (db Sample.five_state))))
          <= PageSize Sample.one_feed) as Hlo.
  { vm_compute. intros H. discriminate H. }
  assert (PageSize Sample.one_feed <= 1) as Hhi.
  { vm_compute. intros H. discriminate H. }
  split; [exact Hlo|]. split; [exact Hhi|].
  exact (downloadEpisodes_page_size_one Sample.world Sample.one_feed Sample.five_state
           Hlo Hhi).
Defined.

(** Only the modes [require] and [requiredelay] can put a download off:
    in every other mode, [delay] included, a candidate whose blob is not in
    storage is handed to the downloader, whether or not the delay has
    elapsed and whatever the lookup returned. *)
Theorem other_modes_download_at_once (w : World) (feedConfig : Feed) (e : Episode)
    (st : State) :
  SponsorblockMode feedConfig <> "require" ->
  SponsorblockMode feedConfig <> "requiredelay" ->
  fsSize w st (EpisodeName w feedConfig e) = SizeNotExist ->
  exists events,
    trace (fst (processEpisode w feedConfig e st))
    = trace (after_calls w feedConfig e st) ++ events
    /\ last (trace (after_calls w feedConfig e st)) = Some (EvDownload (ID e)).
Proof.
  intros H1 H2 Hs.
  assert (attempted w feedConfig e st) as Ha.
  { split; [done|]. intros [[? _]|[? _]]; done. }
  rewrite (processEpisode_attempted _ _ _ _ Ha).
  assert (last (trace (after_calls w feedConfig e st)) = Some (EvDownload (ID e))) as Hl.
  { unfold after_calls. simpl. by rewrite last_snoc. }
  destruct (Download w e) as [path rawSize| |].
  - destruct (storeAndMark_trace w feedConfig e path rawSize (segments_for w feedConfig e)
                (after_calls w feedConfig e st)) as [events Hev].
    exists events. by split.
  - exists []. by rewrite app_nil_r.
  - exists []. rewrite app_nil_r.
    by destruct (UpdateEpisode (db st) (ID e) set_error).
Qed.

Lemma other_modes_download_at_once_witness :
  SponsorblockMode Sample.delay_feed <> "require"
  /\ SponsorblockMode Sample.delay_feed <> "requiredelay"
  /\ fsSize Sample.world Sample.recent_state
       (EpisodeName Sample.world Sample.delay_feed Sample.recent) = SizeNotExist
  /\ DelayPassed Sample.world Sample.recent = false
  /\ exists events,
       trace (fst (processEpisode Sample.world Sample.delay_feed Sample.recent
                     Sample.recent_state))
       = trace (after_calls Sample.world Sample.delay_feed Sample.recent Sample.recent_state)
         ++ events
       /\ last (trace (after_calls Sample.world Sample.delay_feed Sample.recent
                         Sample.recent_state))
          = Some (EvDownload (ID Sample.recent)).
Proof.
  assert (SponsorblockMode Sample.delay_feed <> "require") as H1 by discriminate.
  assert (SponsorblockMode Sample.delay_feed <> "requiredelay") as H2 by discriminate.
  assert (fsSize Sample.world Sample.recent_state
            (EpisodeName Sample.world Sample.delay_feed Sample.recent) = SizeNotExist)
    as Hs by (vm_compute; reflexivity).
  split; [exact H1|]. split; [exact H2|]. split; [exact Hs|]. split; [reflexivity|].
  exact (other_modes_download_at_once Sample.world Sample.delay_feed Sample.recent
           Sample.recent_state H1 H2 Hs).
Defined.

(** A fetched episode for which no segment is held is stored as fetched:
    the blob gets the size of the raw download and the episode becomes
    [Downloaded] with that size. *)
Theorem plain_download_stores_raw (w : World) (feedConfig : Feed) (e x : Episode)
    (st : State) (path : string) (rawSize : Z) :
  attempted w feedConfig e st ->
  segments_for w feedConfig e = [] ->
  Download w e = Fetched path rawSize ->
  CreateFails w (EpisodeName w feedConfig e) = false ->
  db st !! ID e = Some x ->
  processEpisode w feedConfig e st =
    ({| db := <[ID e := set_downloaded rawSize x]> (db st);
        blobs := <[EpisodeName w feedConfig e := rawSize]> (blobs st);
        trace := trace (after_calls w feedConfig e st)
                 ++ [EvCreate (EpisodeName w feedConfig e) rawSize] |}, Continue).
Proof.
  intros Ha Hseg Hd Hc Hx. rewrite (processEpisode_attempted _ _ _ _ Ha), Hd, Hseg.
  unfold storeAndMark, fsCreate, after_calls. simpl. rewrite Hc.
  destruct (decide (SponsorblockMode feedConfig <> "off")); simpl;
    by rewrite (UpdateEpisode_Some _ _ _ _ Hx).
Qed.

Lemma plain_download_stores_raw_witness :
  attempted Sample.world Sample.off_feed Sample.plain Sample.plain_state
  /\ segments_for Sample.world Sample.off_feed Sample.plain = []
  /\ Download Sample.world Sample.plain = Fetched "/tmp/raw/plain" 1000
  /\ CreateFails Sample.world (EpisodeName Sample.world Sample.off_feed Sample.plain) = false
  /\ db Sample.plain_state !! ID Sample.plain = Some Sample.plain
  /\ processEpisode Sample.world Sample.off_feed Sample.plain Sample.plain_state =
       ({| db := <[ID Sample.plain := set_downloaded 1000 Sample.plain]>
                   (db Sample.plain_state);
           blobs := <[EpisodeName Sample.world Sample.off_feed Sample.plain := 1000]>
                      (blobs Sample.plain_state);
           trace := trace (after_calls Sample.world Sample.off_feed Sample.plain
                             Sample.plain_state)
                    ++ [EvCreate (EpisodeName Sample.world Sample.off_feed Sample.plain)
                          1000] |}, Continue).
Proof.
  assert (attempted Sample.world Sample.off_feed Sample.plain Sample.plain_state) as Ha.
  { split; [vm_compute; reflexivity|].
    vm_compute. intros [[H _]|[H _]]; discriminate H. }
  assert (db Sample.plain_state !! ID Sample.plain = Some Sample.plain) as Hx
    by (vm_compute; reflexivity).
  split; [exact Ha|]. split; [reflexivity|]. split; [reflexivity|].
  split; [reflexivity|]. split; [exact Hx|].
  exact (plain_download_stores_raw Sample.world Sample.off_feed Sample.plain Sample.plain
           Sample.plain_state "/tmp/raw/plain" 1000 Ha eq_refl eq_refl eq_refl Hx).
Defined.

(** A fetched episode for which segments are held is stored trimmed: the
    transcoder runs on the arguments rendered from the planner's keep
    intervals, and the blob and the episode get the size of the processed
    file, not of the raw download. *)
Theorem trimmed_download_stores_processed (w : World) (feedConfig : Feed) (e x : Episode)
    (st : State) (path tmpDir : string) (rawSize size : Z) (keeps : list (Q * Q)) :
  attempted w feedConfig e st ->
  segments_for w feedConfig e <> [] ->
  planKeeps (Categories feedConfig) (segments_for w feedConfig e) = Some keeps ->
  TempDir w e = Some tmpDir ->
  Download w e = Fetched path rawSize ->
  Transcode w (ffmpegArgs (Join w) tmpDir path (FeedFormat feedConfig) e keeps)
    = Transcoded size ->
  OpenFails w (processedPath (Join w) tmpDir (FeedFormat feedConfig) e) = false ->
  CreateFails w (EpisodeName w feedConfig e) = false ->
  db st !! ID e = Some x ->
  processEpisode w feedConfig e st =
    ({| db := <[ID e := set_downloaded size x]> (db st);
        blobs := <[EpisodeName w feedConfig e := size]> (blobs st);
        trace := trace (after_calls w feedConfig e st)
                 ++ [EvFfmpeg (ffmpegArgs (Join w) tmpDir path (FeedFormat feedConfig) e keeps);
                     EvCreate (EpisodeName w feedConfig e) size] |}, Continue).
Proof.
  intros Ha Hseg Hp Ht Hd Htr Ho Hc Hx.
  rewrite (processEpisode_attempted _ _ _ _ Ha), Hd.
  unfold storeAndMark.
  destruct (decide (length (segments_for w feedConfig e) = 0%nat)) as [Hl|_].
  { by apply nil_length_inv in Hl. }
  unfold storeProcessed. rewrite Hp, Ht, Htr, Ho. unfold fsCreate. rewrite Hc.
  unfold after_calls.
  destruct (decide (SponsorblockMode feedConfig <> "off")); simpl;
    rewrite (UpdateEpisode_Some _ _ _ _ Hx); unfold with_db; simpl;
    by rewrite <- app_assoc.
Qed.

Lemma trimmed_download_stores_processed_witness :
  attempted Sample.world Sample.require_feed Sample.cut1 Sample.cut_state
  /\ segments_for Sample.world Sample.require_feed Sample.cut1 <> []
  /\ planKeeps (Categories Sample.require_feed)
       (segments_for Sample.world Sample.require_feed Sample.cut1)
     = Some [(0, 10); (20, 50); (60.5, -1)]%Q
  /\ processEpisode Sample.world Sample.require_feed Sample.cut1 Sample.cut_state =
       ({| db := <[ID Sample.cut1 := set_downloaded 800 Sample.cut1]> (db Sample.cut_state);
           blobs := <[EpisodeName Sample.world Sample.require_feed Sample.cut1 := 800]>
                      (blobs Sample.cut_state);
           trace := trace (after_calls Sample.world Sample.require_feed Sample.cut1
                             Sample.cut_state)
                    ++ [EvFfmpeg (ffmpegArgs (Join Sample.world) "/tmp/podsync-ffmpeg-1"
                                    "/tmp/raw/cut1" (FeedFormat Sample.require_feed)
                                    Sample.cut1 [(0, 10); (20, 50); (60.5, -1)]%Q);
                        EvCreate (EpisodeName Sample.world Sample.require_feed Sample.cut1)
                          800] |}, Continue).
Proof.
  assert (attempted Sample.world Sample.require_feed Sample.cut1 Sample.cut_state) as Ha.
  { split; [vm_compute; reflexivity|].
    vm_compute. intros [[_ H]|[H _]]; discriminate H. }
  assert (segments_for Sample.world Sample.require_feed Sample.cut1 <> []) as Hseg.
  { vm_compute. intros H. discriminate H. }
  assert (planKeeps (Categories Sample.require_feed)
            (segments_for Sample.world Sample.require_feed Sample.cut1)
          = Some [(0, 10); (20, 50); (60.5, -1)]%Q) as Hp by (vm_compute; reflexivity).
  assert (db Sample.cut_state !! ID Sample.cut1 = Some Sample.cut1) as Hx
    by (vm_compute; reflexivity).
  split; [exact Ha|]. split; [exact Hseg|]. split; [exact Hp|].
  refine (trimmed_download_stores_processed Sample.world Sample.require_feed Sample.cut1
            Sample.cut1 Sample.cut_state "/tmp/raw/cut1" "/tmp/podsync-ffmpeg-1" 1000 800
            _ Ha Hseg Hp eq_refl eq_refl _ eq_refl eq_refl Hx).
  vm_compute. reflexivity.
Defined.

(** ** Retention cleaner, continued *)

Lemma cleanup_as_fold (w : World) (feedConfig : Feed) (st : State) :
  sorts w ->
  exists excess,
    cleanup w feedConfig st = foldl (cleanStep w feedConfig) (st, []) excess
    /\ (forall e, e ∈ excess -> e ∈ downloaded_list (db st))
    /\ (1 <= KeepLast feedConfig < Z.of_nat (length (downloaded_list (db st))) ->
        exists newest, newest ++ excess ≡ₚ downloaded_list (db st)
                       /\ length newest = Z.to_nat (KeepLast feedConfig)).
Proof.
  intros Hsort. unfold cleanup. fold (downloaded_list (db st)).
  destruct (Hsort (downloaded_list (db st))) as [Hperm _].
  destruct (KeepLast feedConfig <? 1) eqn:H1.
  { exists []. split; [done|]. split; [by intros e ?%elem_of_nil|].
    apply Z.ltb_lt in H1. lia. }
  destruct (Z.of_nat (length (downloaded_list (db st))) <? KeepLast feedConfig) eqn:H2.
  { exists []. split; [done|]. split; [by intros e ?%elem_of_nil|].
    apply Z.ltb_lt in H2. lia. }
  exists (drop (Z.to_nat (KeepLast feedConfig))
            (SortSlice w after (downloaded_list (db st)))).
  split; [done|]. split.
  - intros e He. rewrite <- Hperm.
    rewrite <- (take_drop (Z.to_nat (KeepLast feedConfig))
                  (SortSlice w after (downloaded_list (db st)))).
    apply elem_of_app. by right.
  - intros Hn. exists (take (Z.to_nat (KeepLast feedConfig))
                         (SortSlice w after (downloaded_list (db st)))).
    split; [by rewrite take_drop|].
    rewrite length_take, (Permutation_length Hperm). lia.
Qed.

(** The cleaner deletes and creates no record: each one is left as it was
    or goes from [Downloaded] to [Cleaned] with its title and description
    emptied; it creates no blob; and every error it reports is a failed
    blob deletion. *)
Theorem cleanup_only_retires (w : World) (feedConfig : Feed) (st : State) :
  keyed (db st) -> sorts w ->
  retired (db st) (db (fst (cleanup w feedConfig st)))
  /\ (forall n, blobs (fst (cleanup w feedConfig st)) !! n = blobs st !! n
                \/ blobs (fst (cleanup w feedConfig st)) !! n = None)
  /\ (forall err, err ∈ snd (cleanup w feedConfig st) ->
        exists e, err = ErrDelete (ID e) /\ db st !! ID e = Some e
                  /\ Status e = EpisodeDownloaded /\ ~ deletable w feedConfig e
                  /\ db (fst (cleanup w feedConfig st)) !! ID e = Some e).
Proof.
  intros Hk Hsort.
  destruct (cleanup_as_fold w feedConfig st Hsort) as [excess [-> [Hin _]]].
  destruct (cleanStep_fold w feedConfig excess st []) as [st' [-> [Hd [Hb Ht]]]].
  { intros e He. apply Hin, elem_of_downloaded_list in He as [He _]; [|done].
    by rewrite He. }
  simpl.
  assert (Hsame : forall e, e ∈ downloaded_list (db st) ->
            ID e ∈ ID <$> filter (deletable w feedConfig) excess ->
            deletable w feedConfig e).
  { intros e He [e' [Hid He']]%list_elem_of_fmap.
    apply list_elem_of_filter in He' as [Hdel He'].
    apply Hin, elem_of_downloaded_list in He' as [He2 _]; [|done].
    apply elem_of_downloaded_list in He as [He _]; [|done].
    rewrite Hid in He. assert (e = e') as -> by congruence. done. }
  split; [|split].
  - intros k. rewrite Hd.
    destruct (decide (k ∈ ID <$> filter (deletable w feedConfig) excess)) as [Hc|Hc].
    + apply list_elem_of_fmap in Hc as [e [-> He]].
      apply list_elem_of_filter in He as [_ He].
      apply Hin, elem_of_downloaded_list in He as [He Hs]; [|done].
      rewrite He. right. by split.
    + destruct (db st !! k); [by left | done].
  - intros n. rewrite Hb. destruct (decide _); [by right | by left].
  - intros err [e [-> He]]%list_elem_of_fmap.
    apply list_elem_of_filter in He as [Hnd He].
    pose proof (Hin _ He) as Hdl.
    apply elem_of_downloaded_list in Hdl as [Hdb Hs]; [|done].
    exists e. repeat split; try done.
    rewrite Hd, decide_False; [done|]. intros Hc. apply Hnd. apply Hsame; [|done].
    by apply Hin.
Qed.

Lemma cleanup_only_retires_witness :
  keyed (db Sample.shelf) /\ sorts Sample.world
  /\ retired (db Sample.shelf) (db (fst (cleanup Sample.world Sample.keep4_feed Sample.shelf)))
  /\ (forall n, blobs (fst (cleanup Sample.world Sample.keep4_feed Sample.shelf)) !! n
                = blobs Sample.shelf !! n
                \/ blobs (fst (cleanup Sample.world Sample.keep4_feed Sample.shelf)) !! n
                   = None)
  /\ (forall err, err ∈ snd (cleanup Sample.world Sample.keep4_feed Sample.shelf) ->
        exists e, err = ErrDelete (ID e) /\ db Sample.shelf !! ID e = Some e
                  /\ Status e = EpisodeDownloaded
                  /\ ~ deletable Sample.world Sample.keep4_feed e
                  /\ db (fst (cleanup Sample.world Sample.keep4_feed Sample.shelf)) !! ID e
                     = Some e).
Proof.
  assert (keyed (db Sample.shelf)) as Hk by apply keyed_store_of.
  split; [exact Hk|]. split; [exact sorts_sample|].
  exact (cleanup_only_retires Sample.world Sample.keep4_feed Sample.shelf Hk sorts_sample).
Defined.

Lemma filter_all {A} (P : A -> Prop) `{!forall x, Decision (P x)} (l : list A) :
  (forall x, x ∈ l -> P x) -> filter P l = l.
Proof.
  induction l as [|x l IH]; intros Hall; [done|].
  rewrite filter_cons_True by (apply Hall; by apply elem_of_cons; left).
  f_equal. apply IH. intros y Hy. apply Hall. by apply elem_of_cons; right.
Qed.

Lemma cleanup_noop (w : World) (feedConfig : Feed) (st : State) :
  sorts w ->
  KeepLast feedConfig < 1
  \/ Z.of_nat (length (downloaded_list (db st))) <= KeepLast feedConfig ->
  cleanup w feedConfig st = (st, []).
Proof.
  intros Hsort Hn. unfold cleanup. fold (downloaded_list (db st)).
  destruct (KeepLast feedConfig <? 1) eqn:H1; [done|].
  destruct (Z.of_nat (length (downloaded_list (db st))) <? KeepLast feedConfig); [done|].
  apply Z.ltb_ge in H1. destruct Hn as [Hn|Hn]; [lia|].
  destruct (Hsort (downloaded_list (db st))) as [Hperm _].
  rewrite drop_ge; [done|]. rewrite (Permutation_length Hperm). lia.
Qed.

(** When every blob can be deleted the cleaner reports no error, leaves at
    most [KeepLast] episodes [Downloaded] (for a count of 1 or more), and a
    second pass right after the first changes nothing. *)
Theorem cleanup_settles (w : World) (feedConfig : Feed) (st : State) :
  keyed (db st) -> sorts w ->
  (forall e, e ∈ downloaded_list (db st) -> deletable w feedConfig e) ->
  snd (cleanup w feedConfig st) = []
  /\ (1 <= KeepLast feedConfig ->
      Z.of_nat (length (downloaded_list (db (fst (cleanup w feedConfig st)))))
        <= KeepLast feedConfig)
  /\ cleanup w feedConfig (fst (cleanup w feedConfig st))
     = (fst (cleanup w feedConfig st), []).
Proof.
  intros Hk Hsort Hdel.
  destruct (Z_lt_le_dec (KeepLast feedConfig) 1) as [Hlow|Hone].
  { rewrite (cleanup_noop w feedConfig st Hsort (or_introl Hlow)). simpl.
    split; [done|]. split; [lia|]. by apply cleanup_noop; [|left]. }
  destruct (Z_le_gt_dec (Z.of_nat (length (downloaded_list (db st)))) (KeepLast feedConfig))
    as [Hfew|Hmany].
  { rewrite (cleanup_noop w feedConfig st Hsort (or_intror Hfew)). simpl.
    split; [done|]. split; [done|]. by apply cleanup_noop; [|right]. }
  destruct (cleanup_as_fold w feedConfig st Hsort) as [excess [-> [Hin Hsplit]]].
  destruct Hsplit as [newest [Hperm Hlen]]; [lia|].
  destruct (cleanStep_fold w feedConfig excess st []) as [st' [-> [Hd [Hb Ht]]]].
  { intros e He. apply Hin, elem_of_downloaded_list in He as [He _]; [|done].
    by rewrite He. }
  assert (Hall : filter (deletable w feedConfig) excess = excess).
  { apply filter_all. intros e He. by apply Hdel, Hin. }
  assert (Hnone : filter (fun e => ~ deletable w feedConfig e) excess = []).
  { apply elem_of_nil_inv. intros e [Hn He]%list_elem_of_filter. by apply Hn, Hdel, Hin. }
  rewrite Hall in Hd. rewrite Hnone. simpl.
  assert (Hk' : keyed (db st')).
  { intros k e. rewrite Hd. destruct (decide _).
    - destruct (db st !! k) as [x|] eqn:Hx; [|done]. intros [= <-]. simpl.
      by apply (Hk k x).
    - apply Hk. }
  assert (Hnd : NoDup ((ID <$> newest) ++ (ID <$> excess))).
  { rewrite <- fmap_app, Hperm. by apply NoDup_downloaded_IDs. }
  pose proof Hnd as [Hnd1 [Hdisj Hnd2]]%NoDup_app.
  assert (Hnew : forall e, e ∈ newest -> e ∈ downloaded_list (db st)).
  { intros e He. rewrite <- Hperm. apply elem_of_app. by left. }
  assert (Hiff : forall e, e ∈ downloaded_list (db st') <-> e ∈ newest).
  { intros e. rewrite (elem_of_downloaded_list _ _ Hk'), Hd. split.
    - intros [He Hs]. destruct (decide (ID e ∈ ID <$> excess)) as [Hc|Hc].
      + destruct (db st !! ID e) as [x|]; [|done]. injection He as <-. done.
      + assert (e ∈ newest ++ excess) as Hx.
        { rewrite Hperm. by apply elem_of_downloaded_list. }
        apply elem_of_app in Hx as [Hx|Hx]; [done|].
        exfalso. apply Hc. by apply list_elem_of_fmap_2.
    - intros He. pose proof (Hnew _ He) as Hdl.
      apply elem_of_downloaded_list in Hdl as [Hdb Hs]; [|done].
      rewrite decide_False; [done|]. apply Hdisj. by apply list_elem_of_fmap_2. }
  assert (Hcount : length (downloaded_list (db st')) = Z.to_nat (KeepLast feedConfig)).
  { rewrite <- Hlen. apply Permutation_length, NoDup_Permutation; [| |done].
    - apply (NoDup_fmap_1 ID). by apply NoDup_downloaded_IDs.
    - by apply (NoDup_fmap_1 ID). }
  split; [done|]. split; [lia|].
  apply cleanup_noop; [done|]. right. lia.
Qed.

Lemma cleanup_settles_witness :
  keyed (db Sample.open_shelf) /\ sorts Sample.world
  /\ (forall e, e ∈ downloaded_list (db Sample.open_shelf) ->
        deletable Sample.world Sample.keep4_feed e)
  /\ snd (cleanup Sample.world Sample.keep4_feed Sample.open_shelf) = []
  /\ (1 <= KeepLast Sample.keep4_feed ->
      Z.of_nat (length (downloaded_list
                          (db (fst (cleanup Sample.world Sample.keep4_feed
                                      Sample.open_shelf)))))
        <= KeepLast Sample.keep4_feed)
  /\ cleanup Sample.world Sample.keep4_feed
       (fst (cleanup Sample.world Sample.keep4_feed Sample.open_shelf))
     = (fst (cleanup Sample.world Sample.keep4_feed Sample.open_shelf), []).
Proof.
  assert (keyed (db Sample.open_shelf)) as Hk by apply keyed_store_of.
  assert (forall e, e ∈ downloaded_list (db Sample.open_shelf) ->
            deletable Sample.world Sample.keep4_feed e) as Hdel.
  { intros e He. unfold deletable. vm_compute in He.
    repeat (apply elem_of_cons in He as [->|He]; [vm_compute; reflexivity|]).
    by apply elem_of_nil in He. }
  split; [exact Hk|]. split; [exact sorts_sample|]. split; [exact Hdel|].
  exact (cleanup_settles Sample.world Sample.keep4_feed Sample.open_shelf
           Hk sorts_sample Hdel).
Defined.

(** ** Episode reconciler, continued *)

(** Go ranges over [episodeSet] in an unspecified order: the store left by
    the deletions is the same for every order. *)
Theorem deleteAll_any_order (db : Store) (ids ids' : list string) :
  ids ≡ₚ ids' -> deleteAll db ids = deleteAll db ids'.
Proof.
  intros Hp.
  destruct (deleteAll_lookup ids db) as [db1 [-> H1]].
  destruct (deleteAll_lookup ids' db) as [db2 [-> H2]].
  f_equal. apply map_eq. intros k. rewrite H1, H2.
  destruct (decide (k ∈ ids)) as [Hin|Hin]; destruct (decide (k ∈ ids')) as [Hin'|Hin'];
    try done; exfalso.
  - apply Hin'. by rewrite <- Hp.
  - apply Hin. by rewrite Hp.
Qed.

Lemma deleteAll_any_order_witness :
  ["n"; "x"; "k"] ≡ₚ ["k"; "n"; "x"]
  /\ deleteAll Sample.mixed_store ["n"; "x"; "k"] = deleteAll Sample.mixed_store ["k"; "n"; "x"].
Proof.
  assert (["n"; "x"; "k"] ≡ₚ ["k"; "n"; "x"]) as Hp.
  { eapply perm_trans; [apply perm_skip, perm_swap | apply perm_swap]. }
  split; [exact Hp|].
  exact (deleteAll_any_order Sample.mixed_store _ _ Hp).
Defined.

(** After reconciliation every episode of the listing is stored: with the
    status it had when it was already known, as [New] when it was not. *)
Theorem updateFeed_stores_listing (res : FeedResult) (db : Store) (r : Episode) :
  keyed db ->
  r ∈ Episodes res ->
  exists db' e', updateFeed (Ok res) db = Ok db'
    /\ db' !! ID r = Some e'
    /\ ID e' = ID r
    /\ Status e' = status_or_new (db !! ID r).
Proof.
  intros Hk Hr. destruct (updateFeed_lookup res db Hk) as [db' [Hu Hl]].
  assert (ID r ∈ ID <$> Episodes res) as Hin by (by apply list_elem_of_fmap_2).
  destruct (last_with (ID r) (Episodes res)) as [r'|] eqn:Hlast.
  - exists db', (with_status (status_or_new (db !! ID r)) r'). split; [done|].
    rewrite Hl. destruct (decide (stale db (Episodes res) (ID r))) as [[e [_ [_ Hn]]]|_].
    { done. }
    rewrite AddFeed_lookup, Hlast. split; [done|]. split; [|done].
    simpl. by apply last_with_ID in Hlast.
  - by apply last_with_None in Hlast.
Qed.

Lemma updateFeed_stores_listing_witness :
  keyed Sample.mixed_store
  /\ Sample.episode "f" "fresh" 6 EpisodeNew ∈ Episodes Sample.listing
  /\ exists db' e', updateFeed (Ok Sample.listing) Sample.mixed_store = Ok db'
       /\ db' !! ID (Sample.episode "f" "fresh" 6 EpisodeNew) = Some e'
       /\ ID e' = ID (Sample.episode "f" "fresh" 6 EpisodeNew)
       /\ Status e' = status_or_new
                        (Sample.mixed_store !! ID (Sample.episode "f" "fresh" 6 EpisodeNew)).
Proof.
  assert (keyed Sample.mixed_store) as Hk by apply keyed_store_of.
  assert (Sample.episode "f" "fresh" 6 EpisodeNew ∈ Episodes Sample.listing) as Hr.
  { apply elem_of_cons. right. apply elem_of_cons. by left. }
  split; [exact Hk|]. split; [exact Hr|].
  exact (updateFeed_stores_listing Sample.listing Sample.mixed_store _ Hk Hr).
Defined.

(** ** Segment planner, continued *)

Lemma planLoop_removed (c : SponsorBlockCategories) (segments : list Segment) :
  forall (nextStart : Q) (keeps : list (Q * Q)),
    match planLoop c segments nextStart keeps with
    | Some (keeps', cursor) =>
        Forall (fun s => is_Some (bounds s)) (removed c segments)
        /\ keeps' ++ [(cursor, (-1)%Q)]
           = keeps ++ keeps_of (omap bounds (removed c segments)) nextStart
    | None => Exists (fun s => bounds s = None) (removed c segments)
    end.
Proof.
  induction segments as [|s segments IH]; intros nextStart keeps.
  - simpl. split; [constructor | done].
  - cbn [planLoop]. unfold removed in *.
    destruct (kept c s) eqn:Hk.
    + rewrite filter_cons_False by (rewrite Hk; discriminate). apply IH.
    + rewrite filter_cons_True by done.
      destruct (SegmentBounds s) as [|s0 [|s1 tl]] eqn:Hb;
        cbn [lookup list_lookup].
      * apply Exists_cons. left. unfold bounds. by rewrite Hb.
      * apply Exists_cons. left. unfold bounds. by rewrite Hb.
      * assert (bounds s = Some (s0, s1)) as Hbs by (unfold bounds; by rewrite Hb).
        specialize (IH s1 (keeps ++ [(nextStart, s0)])).
        destruct (planLoop c segments s1 (keeps ++ [(nextStart, s0)])) as [[keeps' cursor]|].
        -- destruct IH as [Hall Heq]. split.
           ++ constructor; [by rewrite Hbs | done].
           ++ rewrite Heq, <- app_assoc. cbn [omap list_omap]. by rewrite Hbs.
        -- apply Exists_cons. by right.
Qed.

(** The planner cuts every segment unless its category is one of the six
    and that category's policy is exactly [keep]; it panics exactly when a
    segment to cut lacks one of its two bounds; otherwise it returns one
    interval per segment cut and the tail, which starts where the last cut
    ends and has end [-1]. *)
Theorem planKeeps_cuts_unless_kept (c : SponsorBlockCategories) (segments : list Segment) :
  (planKeeps c segments = None
   <-> Exists (fun s => bounds s = None) (removed c segments))
  /\ (Forall (fun s => is_Some (bounds s)) (removed c segments) ->
      planKeeps c segments = Some (keeps_of (omap bounds (removed c segments)) 0%Q)
      /\ length (keeps_of (omap bounds (removed c segments)) 0%Q)
         = S (length (removed c segments)))
  /\ (forall s, s ∈ segments ->
        (s ∈ removed c segments <-> policy_of c (Category s) <> Some "keep")).
Proof.
  pose proof (planLoop_removed c segments 0%Q []) as H. unfold planKeeps.
  assert (Hex : Exists (fun s => bounds s = None) (removed c segments) ->
                Forall (fun s => is_Some (bounds s)) (removed c segments) -> False).
  { intros [s [Hs Hn]]%Exists_exists Hall.
    rewrite Forall_forall in Hall. destruct (Hall s Hs) as [x Hx]. congruence. }
  split; [|split].
  - destruct (planLoop c segments 0%Q []) as [[keeps' cursor]|].
    + destruct H as [Hall _]. split; [done|]. intros Hn. exfalso. by apply Hex.
    + by split.
  - intros Hall. destruct (planLoop c segments 0%Q []) as [[keeps' cursor]|].
    + destruct H as [_ Heq]. simpl in Heq. rewrite Heq. split; [done|].
      clear Heq Hex. generalize 0%Q.
      induction Hall as [|s l [[a b] Hs] Hall IH]; intros q; [done|].
      simpl. rewrite Hs. simpl. by rewrite IH.
    + exfalso. by apply Hex.
  - intros s Hs. unfold removed. rewrite list_elem_of_filter.
    rewrite <- kept_iff_keep. destruct (kept c s); split; try tauto; try done.
    intros [? _]. done.
Qed.

Lemma planKeeps_cuts_unless_kept_witness :
  Forall (fun s => is_Some (bounds s)) (removed Sample.categories Sample.segments)
  /\ planKeeps Sample.categories Sample.segments
     = Some (keeps_of (omap bounds (removed Sample.categories Sample.segments)) 0%Q)
  /\ length (keeps_of (omap bounds (removed Sample.categories Sample.segments)) 0%Q)
     = S (length (removed Sample.categories Sample.segments)).
Proof.
  assert (Forall (fun s => is_Some (bounds s)) (removed Sample.categories Sample.segments))
    as Hall.
  { vm_compute. repeat constructor; by eexists. }
  split; [exact Hall|].
  exact (proj1 (proj2 (planKeeps_cuts_unless_kept Sample.categories Sample.segments)) Hall).
Defined.

(** ** Filter engine, continued *)

(** On a non-empty pattern that compiles, the positive and the negative
    gate are each other's negation; so a filter set that uses one such
    pattern both as [title] and as [not_title] accepts no episode. *)
Theorem gates_are_complementary (ms : string -> string -> option bool)
    (episode : Episode) (filters : Filters) :
  FTitle filters <> "" ->
  is_Some (ms (FTitle filters) (Title episode)) ->
  matchRegexpFilter ms (FTitle filters) (Title episode) true
    = negb (matchRegexpFilter ms (FTitle filters) (Title episode) false)
  /\ (FNotTitle filters = FTitle filters -> matchFilters ms episode filters = false).
Proof.
  intros Hne [m Hm].
  assert (matchRegexpFilter ms (FTitle filters) (Title episode) true
          = negb (matchRegexpFilter ms (FTitle filters) (Title episode) false)) as Hc.
  { unfold matchRegexpFilter. rewrite Hm.
    destruct (decide (FTitle filters <> "")); [|done]. by destruct m. }
  split; [done|]. intros Heq. unfold matchFilters. rewrite Heq, Hc.
  by destruct (matchRegexpFilter ms (FTitle filters) (Title episode) false).
Qed.

Lemma gates_are_complementary_witness :
  FTitle {| FTitle := "live"; FNotTitle := "live"; FDescription := "";
            FNotDescription := "" |} <> ""
  /\ is_Some (Sample.literalMatch "live" (Title (Sample.episode "a" "a live show" 1 EpisodeNew)))
  /\ matchFilters Sample.literalMatch (Sample.episode "a" "a live show" 1 EpisodeNew)
       {| FTitle := "live"; FNotTitle := "live"; FDescription := "";
          FNotDescription := "" |} = false.
Proof.
  assert (FTitle {| FTitle := "live"; FNotTitle := "live"; FDescription := "";
                    FNotDescription := "" |} <> "") as Hne by discriminate.
  assert (is_Some (Sample.literalMatch "live"
                     (Title (Sample.episode "a" "a live show" 1 EpisodeNew)))) as Hm.
  { vm_compute. by eexists. }
  split; [exact Hne|]. split; [exact Hm|].
  exact (proj2 (gates_are_complementary Sample.literalMatch
                  (Sample.episode "a" "a live show" 1 EpisodeNew)
                  {| FTitle := "live"; FNotTitle := "live"; FDescription := "";
                     FNotDescription := "" |} Hne Hm) eq_refl).
Defined.

(** ** Orchestrator *)

Lemma processAll_keyed (w : World) (feedConfig : Feed) (l : list Episode) (st : State) :
  keyed (db st) -> keyed (db (fst (processAll w feedConfig l st))).
Proof.
  intros Hk k e' He'. pose proof (processAll_rescheduled w feedConfig l st k) as H.
  destruct (db st !! k) as [e|] eqn:He; [|congruence].
  destruct H as [e'' [He'' [[Hid _] _]]]. rewrite He' in He''. injection He'' as <-.
  simpl. rewrite Hid. by apply (Hk k e).
Qed.

Lemma downloadEpisodes_keyed (w : World) (feedConfig : Feed) (st : State) :
  keyed (db st) -> keyed (db (fst (downloadEpisodes w feedConfig st))).
Proof.
  intros Hk. unfold downloadEpisodes.
  destruct (selectCandidates w feedConfig (db st)) as [p dl].
  destruct (decide (0 < length dl)%nat); [|done]. by apply processAll_keyed.
Qed.

Lemma cleanup_retired (w : World) (feedConfig : Feed) (st : State) :
  keyed (db st) -> sorts w -> retired (db st) (db (fst (cleanup w feedConfig st))).
Proof.
  intros Hk Hsort.
  destruct (cleanup_as_fold w feedConfig st Hsort) as [excess [-> [Hin _]]].
  destruct (cleanStep_fold w feedConfig excess st []) as [st' [-> [Hd _]]].
  { intros e He. apply Hin, elem_of_downloaded_list in He as [He _]; [|done].
    by rewrite He. }
  simpl. intros k. rewrite Hd.
  destruct (decide (k ∈ ID <$> filter (deletable w feedConfig) excess)) as [Hc|Hc].
  - apply list_elem_of_fmap in Hc as [e [-> He]].
    apply list_elem_of_filter in He as [_ He].
    apply Hin, elem_of_downloaded_list in He as [He Hs]; [|done].
    rewrite He. right. by split.
  - destruct (db st !! k); [by left | done].
Qed.

(** Whatever the listing, the collaborators and the stage at which a run
    stops, an episode that is [Downloaded] or [Cleaned] before [Update] is
    still stored, and still [Downloaded] or [Cleaned], after it. *)
Theorem Update_keeps_finished (w : World) (b : Builders) (fetched : result FeedResult)
    (feedConfig : Feed) (r : Run) :
  keyed (db (state r)) -> sorts w ->
  finished_kept (db (state r)) (db (state (fst (Update w b fetched feedConfig r)))).
Proof.
  intros Hk Hsort k e He Hs. unfold Update.
  destruct fetched as [res|err]; [|by exists e].
  destruct (updateFeed (Ok res) (db (state r))) as [db1|err] eqn:Hu; [|by exists e].
  pose proof (updateFeed_keyed _ _ _ Hk Hu) as Hk1.
  destruct (updateFeed_survives _ _ _ Hk Hu k e He Hs) as [e1 [He1 Hs1]].
  assert (Status e1 = EpisodeDownloaded \/ Status e1 = EpisodeCleaned) as Hs1'
    by (rewrite Hs1; exact Hs).
  set (st1 := with_db (state r) db1).
  assert (db (fst (downloadEpisodes w feedConfig st1)) !! k = Some e1) as He2.
  { rewrite downloadEpisodes_other; [done|].
    by apply (finished_not_queued w feedConfig db1 k e1). }
  pose proof (downloadEpisodes_keyed w feedConfig st1 Hk1) as Hk2.
  destruct (downloadEpisodes w feedConfig st1) as [st2 [err|]]; simpl in *.
  { by exists e1. }
  destruct (buildXML b feedConfig (db st2) (root r)) as [files [err|]]; simpl.
  { by exists e1. }
  destruct (buildOPML b (db st2) files) as [files' [err|]]; simpl.
  { by exists e1. }
  pose proof (cleanup_retired w feedConfig st2 Hk2 Hsort k) as Hr.
  rewrite He2 in Hr. destruct Hr as [Hr|[_ Hr]].
  - by exists e1.
  - exists (set_cleaned e1). split; [done|]. by right.
Qed.

Lemma Update_keeps_finished_witness :
  keyed (db (state Sample.shelf_run)) /\ sorts Sample.world
  /\ finished_kept (db (state Sample.shelf_run))
       (db (state (fst (Update Sample.world Sample.builders (Ok Sample.listing)
                          Sample.keep4_feed Sample.shelf_run)))).
Proof.
  assert (keyed (db (state Sample.shelf_run))) as Hk by apply keyed_store_of.
  split; [exact Hk|]. split; [exact sorts_sample|].
  exact (Update_keeps_finished Sample.world Sample.builders (Ok Sample.listing)
           Sample.keep4_feed Sample.shelf_run Hk sorts_sample).
Defined.

(** [Update] returns no error exactly when the reconciler, the scheduler
    and the two document builds succeed; the errors of the cleaner are
    never returned. After such a run both documents are at the root of
    file storage and the state is the one the cleaner left. *)
Theorem Update_succeeds_iff (w : World) (b : Builders) (fetched : result FeedResult)
    (feedConfig : Feed) (r : Run) :
  snd (Update w b fetched feedConfig r) = None
  <-> exists db1 st2 xml opml,
        updateFeed fetched (db (state r)) = Ok db1
        /\ downloadEpisodes w feedConfig (with_db (state r) db1) = (st2, None)
        /\ BuildXML b feedConfig (db st2) = Ok xml
        /\ RootCreateFails b (FeedID feedConfig +:+ ".xml") = false
        /\ BuildOPML b (db st2) = Ok opml
        /\ RootCreateFails b "podsync.opml" = false
        /\ fst (Update w b fetched feedConfig r)
           = {| state := fst (cleanup w feedConfig st2);
                root := <["podsync.opml" := opml]>
                          (<[FeedID feedConfig +:+ ".xml" := xml]> (root r)) |}.
Proof.
  unfold Update, buildXML, buildOPML. split.
  - destruct (updateFeed fetched (db (state r))) as [db1|err] eqn:Hu; [|done].
    destruct (downloadEpisodes w feedConfig (with_db (state r) db1)) as [st2 [err|]]
      eqn:Hd; [done|].
    destruct (BuildXML b feedConfig (db st2)) as [xml|err] eqn:Hb; [|done].
    destruct (RootCreateFails b (FeedID feedConfig +:+ ".xml")) eqn:Hx; [done|].
    destruct (BuildOPML b (db st2)) as [opml|err] eqn:Hp; [|done].
    change ("podsync" +:+ ".opml") with "podsync.opml".
    destruct (RootCreateFails b "podsync.opml") eqn:Ho; [done|].
    intros _. exists db1, st2, xml, opml. by rewrite Hd, Hb, Hp.
  - intros (db1 & st2 & xml & opml & -> & -> & -> & -> & -> & Ho & _).
    change ("podsync" +:+ ".opml") with "podsync.opml". by rewrite Ho.
Qed.
